(** * The DFA engine of [automata_dfa.py], embedded and verified

    The Python class [DFA] keeps six attributes: the sets [states],
    [alphabet] and [accept], the nested dictionary [delta], the optional
    [start] state and the simulation cursor [current].  States and symbols
    are Python strings; [None] is modelled by [option].  Every method is a
    function on the record below; methods that both mutate the object and
    return a value give back the pair of the new object and the result. *)

From stdpp Require Import gmap strings list fin_maps fin_sets sorting.

Open Scope string_scope.
Open Scope list_scope.

Set Warnings "-clear-no-such-hyp".

(** ** Data model *)

Record DFA : Type := mkDFA {
  states   : gset string;
  alphabet : gset string;
  delta    : gmap string (gmap string string);
  start    : option string;
  accept   : gset string;
  current  : option string
}.

(** [DFA.DEAD] *)
Definition DEAD : string := "__DEAD__".

(** [self.delta.get(s, {})] *)
Definition row (dl : gmap string (gmap string string)) (s : string)
  : gmap string string :=
  default ∅ (dl !! s).

(** [self.delta.get(s, {}).get(a)] *)
Definition target (dl : gmap string (gmap string string)) (s a : string)
  : option string :=
  row dl s !! a.

(** ** Dictionary primitives used by the class *)

(** [dl.setdefault(s, {})], keeping only the effect on [dl]. *)
Definition setdefault_row (s : string) (dl : gmap string (gmap string string))
  : gmap string (gmap string string) :=
  match dl !! s with
  | Some _ => dl
  | None => <[s := ∅]> dl
  end.

(** [r.setdefault(a, t)] on one row. *)
Definition setdefault_sym (a t : string) (r : gmap string string)
  : gmap string string :=
  match r !! a with
  | Some _ => r
  | None => <[a := t]> r
  end.

(** [dl.setdefault(s, {}).setdefault(a, t)] *)
Definition setdefault_entry (s a t : string)
    (dl : gmap string (gmap string string))
  : gmap string (gmap string string) :=
  <[s := setdefault_sym a t (row dl s)]> dl.

(** ** Construction helpers *)

Definition add_state (name : string) (is_accept : bool) (d : DFA) : DFA :=
  mkDFA ({[name]} ∪ states d) (alphabet d) (delta d) (start d)
        (if is_accept then {[name]} ∪ accept d else accept d)
        (current d).

Definition add_transition (src symbol tgt : string) (d : DFA) : DFA :=
  mkDFA ({[tgt]} ∪ ({[src]} ∪ states d))
        ({[symbol]} ∪ alphabet d)
        (<[src := <[symbol := tgt]> (row (delta d) src)]> (delta d))
        (start d) (accept d) (current d).

(** *** [_make_total] *)

(** First loop: [for s in list(self.states): self.delta.setdefault(s, {})]. *)
Definition ensure_rows (sts : list string)
    (dl : gmap string (gmap string string))
  : gmap string (gmap string string) :=
  foldl (fun acc s => setdefault_row s acc) dl sts.

(** The scan that sets [need_dead]: some state of the snapshot misses some
    symbol of the alphabet.  The two [break]s only stop the scan early. *)
Definition missing (dl : gmap string (gmap string string)) (s a : string)
  : bool :=
  bool_decide (row dl s !! a = None).

Definition need_dead (sts syms : list string)
    (dl : gmap string (gmap string string)) : bool :=
  existsb (fun s => existsb (fun a => missing dl s a) syms) sts.

(** [for a in self.alphabet: self.delta[dead].setdefault(a, dead)], after
    [self.delta.setdefault(dead, {})]. *)
Definition dead_loops (syms : list string)
    (dl : gmap string (gmap string string))
  : gmap string (gmap string string) :=
  foldl (fun acc a => setdefault_entry DEAD a DEAD acc)
        (setdefault_row DEAD dl) syms.

(** [for s in list(self.states): for a in self.alphabet:
       self.delta.setdefault(s, {}).setdefault(a, dead)] *)
Definition fill_missing (sts syms : list string)
    (dl : gmap string (gmap string string))
  : gmap string (gmap string string) :=
  foldl (fun acc s =>
           foldl (fun acc' a => setdefault_entry s a DEAD acc') acc syms)
        dl sts.

Definition _make_total (d : DFA) : DFA :=
  let dl1 := ensure_rows (elements (states d)) (delta d) in
  if decide (alphabet d = ∅) then
    mkDFA (states d) (alphabet d) dl1 (start d) (accept d) (current d)
  else if need_dead (elements (states d)) (elements (alphabet d)) dl1 then
    let sts2 := {[DEAD]} ∪ states d in
    let dl2 := dead_loops (elements (alphabet d)) dl1 in
    let dl3 := fill_missing (elements sts2) (elements (alphabet d)) dl2 in
    mkDFA sts2 (alphabet d) dl3 (start d) (accept d) (current d)
  else
    mkDFA (states d) (alphabet d) dl1 (start d) (accept d) (current d).

(** Whether [_make_total] reaches its [if need_dead:] block on [d]. *)
Definition adds_dead (d : DFA) : bool :=
  if decide (alphabet d = ∅) then false
  else need_dead (elements (states d)) (elements (alphabet d))
         (ensure_rows (elements (states d)) (delta d)).

(** ** Simulation *)

Definition reset (d : DFA) : DFA :=
  mkDFA (states d) (alphabet d) (delta d) (start d) (accept d) (start d).

Definition step (symbol : string) (d : DFA) : DFA * option string :=
  if decide (symbol ∈ alphabet d) then
    match current d with
    | None => (d, None)
    | Some c =>
        let nxt := target (delta d) c symbol in
        (mkDFA (states d) (alphabet d) (delta d) (start d) (accept d) nxt,
         nxt)
    end
  else (d, None).

(** The body of the [for ch in w] loop of [run], after the reset. *)
Fixpoint run_loop (w : list string) (d : DFA) : DFA * option string :=
  match w with
  | [] => (d, current d)
  | ch :: w' =>
      if decide (ch ∈ alphabet d) then run_loop w' (step ch d).1
      else (d, None)
  end.

Definition run (w : list string) (d : DFA) : DFA * option string :=
  run_loop w (reset d).

Definition accepts (w : list string) (d : DFA) : DFA * option bool :=
  let '(d', final) := run w d in
  match final with
  | None => (d', None)
  | Some q => (d', Some (bool_decide (q ∈ accept d')))
  end.

(** ** Calls on a live object *)

(** The structural definition: everything but the cursor [current]. *)
Definition structure (d : DFA)
  : gset string * gset string * gmap string (gmap string string)
    * option string * gset string :=
  (states d, alphabet d, delta d, start d, accept d).

(** The simulation entry points, and the object each leaves behind. *)
Inductive sim_call : Type :=
  | Reset
  | Step (symbol : string)
  | Run (w : list string)
  | Accepts (w : list string).

Definition simulate (c : sim_call) (d : DFA) : DFA :=
  match c with
  | Reset => reset d
  | Step symbol => (step symbol d).1
  | Run w => (run w d).1
  | Accepts w => (accepts w d).1
  end.

(** Every public way of touching an existing object, with [_make_total]. *)
Inductive call : Type :=
  | AddState (name : string) (is_accept : bool)
  | AddTransition (src symbol tgt : string)
  | MakeTotal
  | Sim (c : sim_call).

Definition perform (c : call) (d : DFA) : DFA :=
  match c with
  | AddState name is_accept => add_state name is_accept d
  | AddTransition src symbol tgt => add_transition src symbol tgt d
  | MakeTotal => _make_total d
  | Sim c => simulate c d
  end.

Definition perform_all (cs : list call) (d : DFA) : DFA :=
  foldl (fun acc c => perform c acc) d cs.

Definition simulate_all (cs : list sim_call) (d : DFA) : DFA :=
  foldl (fun acc c => simulate c acc) d cs.

(** ** The constructor *)

(** [for s, trans in delta.items(): self.delta[s] = dict(trans);
     self.states.add(s)], on the pair (table, states). *)
Definition copy_rows (spec : gmap string (gmap string string))
    (acc : gmap string (gmap string string) * gset string)
  : gmap string (gmap string string) * gset string :=
  map_fold (fun s trans acc => (<[s := trans]> acc.1, {[s]} ∪ acc.2)) acc spec.

(** [for s_map in list(self.delta.values()): for tgt in s_map.values():
     self.states.add(tgt)] *)
Definition add_targets (dl : gmap string (gmap string string))
    (sts : gset string) : gset string :=
  map_fold (fun _ s_map acc =>
              map_fold (fun _ tgt acc' => {[tgt]} ∪ acc') acc s_map)
           sts dl.

(** [DFA.__init__] up to, and without, the [if make_total:] statement.
    An argument left at [None] is [None] here; [x or []] and [if delta:]
    treat [None] and the empty collection alike. *)
Definition assemble (states0 alphabet0 : option (list string))
    (delta0 : option (gmap string (gmap string string)))
    (start0 : option string) (accept0 : option (list string)) : DFA :=
  let sts := list_to_set (default [] states0) in
  let syms := list_to_set (default [] alphabet0) in
  let acc := list_to_set (default [] accept0) in
  let '(dl, sts1) :=
    match delta0 with
    | Some spec => copy_rows spec (∅, sts)
    | None => (∅, sts)
    end in
  let sts2 := add_targets dl sts1 in
  mkDFA sts2 syms dl start0 acc None.

(** [DFA.__init__] *)
Definition DFA_init (states0 alphabet0 : option (list string))
    (delta0 : option (gmap string (gmap string string)))
    (start0 : option string) (accept0 : option (list string))
    (make_total : bool) : DFA :=
  let d := assemble states0 alphabet0 delta0 start0 accept0 in
  reset (if make_total then _make_total d else d).

(** [example_ends_with_ab] *)
Definition example_ends_with_ab : DFA :=
  DFA_init (Some ["q0"; "q1"; "q2"]) (Some ["a"; "b"])
    (Some (<["q0" := <["a" := "q1"]> (<["b" := "q0"]> ∅)]>
          (<["q1" := <["a" := "q1"]> (<["b" := "q2"]> ∅)]>
          (<["q2" := <["a" := "q1"]> (<["b" := "q0"]> ∅)]> ∅))))
    (Some "q0") (Some ["q2"]) true.

(** ** Further example automata and observations used below *)

(** An automaton built without a start state. *)
Definition example_no_start : DFA :=
  DFA_init (Some ["q0"]) (Some ["a"])
    (Some (<["q0" := <["a" := "q0"]> ∅]> ∅)) None (Some ["q0"]) true.

(** The automaton built by [DFA()], every argument left out. *)
Definition example_default : DFA := DFA_init None None None None None true.

(** Targets are known states. *)
Definition targets_known (d : DFA) : Prop :=
  ∀ s a t, target (delta d) s a = Some t → t ∈ states d.

(** An automaton whose start state is not one of its states. *)
Definition example_stray_start : DFA :=
  DFA_init (Some ["q0"]) (Some ["a"]) None (Some "s") None true.

(** A partial automaton that does not use the name [DEAD]. *)
Definition example_partial : DFA :=
  assemble (Some ["q0"; "q1"]) (Some ["a"; "b"])
    (Some (<["q0" := <["a" := "q1"]> ∅]> ∅)) (Some "q0") (Some ["q1"]).

(** An automaton built with an accept state that is not among its states. *)
Definition example_stray_accept : DFA :=
  DFA_init (Some ["q0"]) (Some ["a"]) None (Some "q0") (Some ["q1"]) true.

(** The entry of [(s, a)] exists in the table. *)
Definition defined_in (dl : gmap string (gmap string string))
    (e : string * string) : bool :=
  bool_decide (is_Some (target dl e.1 e.2)).

(** The entry of [(s, a)] is new in [after] and points at the dead state. *)
Definition filled_with_dead (before after : gmap string (gmap string string))
    (e : string * string) : bool :=
  bool_decide (target before e.1 e.2 = None ∧
               target after e.1 e.2 = Some DEAD).

(** ** Utilities: [to_dict] and [from_components] *)

(** The order of Python's [sorted] on strings: lexicographic on the
    characters, a proper prefix first. *)
Definition string_le (s1 s2 : string) : Prop := String.leb s1 s2 = true.

#[global] Instance string_le_dec : RelDecision string_le.
Proof. intros s1 s2. unfold string_le. apply _. Defined.

#[global] Instance string_le_total : Total string_le.
Proof. intros s1 s2. apply String.leb_total. Qed.

(** [sorted(xs)] on a set of strings.  The elements of a set are distinct,
    so the result does not depend on the order the set hands them out nor
    on the sorting algorithm. *)
Definition sorted (xs : gset string) : list string :=
  merge_sort string_le (elements xs).

(** The dictionary [to_dict] returns.  The value under ['delta'] is a
    dictionary filled in the order of the sorted states; it is kept as the
    list of its items in that order. *)
Record snapshot : Type := mkSnapshot {
  snap_states   : list string;
  snap_alphabet : list string;
  snap_delta    : list (string * gmap string string);
  snap_start    : option string;
  snap_accept   : list string
}.

(** [DFA.to_dict] *)
Definition to_dict (d : DFA) : snapshot :=
  mkSnapshot (sorted (states d))
             (sorted (alphabet d))
             ((fun s => (s, row (delta d) s)) <$> sorted (states d))
             (start d)
             (sorted (accept d)).

(** [DFA.from_components]: the constructor with [make_total] left at its
    default [True]. *)
Definition from_components (states0 alphabet0 : option (list string))
    (delta0 : option (gmap string (gmap string string)))
    (start0 : option string) (accept0 : option (list string)) : DFA :=
  DFA_init states0 alphabet0 delta0 start0 accept0 true.

(** Feeding the five entries of a snapshot back to [from_components]; the
    item list under ['delta'] is read as the dictionary it stands for. *)
Definition from_snapshot (sn : snapshot) : DFA :=
  from_components (Some (snap_states sn)) (Some (snap_alphabet sn))
                  (Some (list_to_map (snap_delta sn)))
                  (snap_start sn) (Some (snap_accept sn)).

(** ** Further invariants *)

(** Every source of the table is a known state. *)
Definition sources_known (d : DFA) : Prop := dom (delta d) ⊆ states d.

(** Every known state has a row and, on every symbol of the alphabet, an
    entry. *)
Definition total (d : DFA) : Prop :=
  ∀ s a, s ∈ states d → a ∈ alphabet d → is_Some (target (delta d) s a).

(** ** The caller in [main.py]: [load_security_example] *)

(** The characters at which [str.split()] cuts ASCII text: tab, line feed,
    vertical tab, form feed, carriage return, the four separators
    [0x1c]-[0x1f] and the space. *)
Definition is_space (c : Ascii.ascii) : bool :=
  let n := Ascii.nat_of_ascii c in
  (Nat.leb 9 n && Nat.leb n 13) || (Nat.leb 28 n && Nat.leb n 32).

(** [s.split()]: the maximal runs of other characters, in order.  [word] is
    the run being read. *)
Fixpoint split_from (word : string) (s : string) : list string :=
  match s with
  | EmptyString => if decide (word = "") then [] else [word]
  | String c s' =>
      if is_space c
      then (if decide (word = "") then split_from "" s'
            else word :: split_from "" s')
      else split_from (word +:+ String c "") s'
  end.

Definition split (s : string) : list string := split_from "" s.

Definition security_states : list string :=
  ["Disarmed"; "Armed_Home"; "Armed_Away"; "Entry_Delay"; "Alarm";
   "Triggered"].

Definition security_alphabet : list string :=
  ["arm_home"; "arm_away"; "disarm"; "motion"; "door"; "window";
   "delay_end"].

Definition security_transitions : list string :=
  ["Disarmed arm_home Armed_Home";
   "Disarmed arm_away Armed_Away";
   "Armed_Home disarm Disarmed";
   "Armed_Away disarm Disarmed";
   "Armed_Home motion Triggered";
   "Armed_Away motion Triggered";
   "Armed_Home door Entry_Delay";
   "Armed_Away door Entry_Delay";
   "Armed_Home window Triggered";
   "Armed_Away window Triggered";
   "Entry_Delay delay_end Alarm";
   "Entry_Delay disarm Disarmed";
   "Alarm disarm Disarmed";
   "Triggered disarm Disarmed";
   "Disarmed motion Disarmed";
   "Disarmed door Disarmed";
   "Disarmed window Disarmed";
   "Disarmed disarm Disarmed";
   "Armed_Home arm_home Armed_Home";
   "Armed_Away arm_away Armed_Away"].

(** One round of [for t in transitions]: [src, sym, tgt = t.split()], which
    raises unless there are exactly three words, then
    [delta.setdefault(src, {})[sym] = tgt]. *)
Definition read_transition (t : string)
    (dl : gmap string (gmap string string))
  : option (gmap string (gmap string string)) :=
  match split t with
  | [src; sym; tgt] => Some (<[src := <[sym := tgt]> (row dl src)]> dl)
  | _ => None
  end.

(** The whole loop, from the empty dictionary; [None] when a round raises. *)
Definition read_transitions (ts : list string)
  : option (gmap string (gmap string string)) :=
  foldl (fun acc t => acc ≫= read_transition t) (Some ∅) ts.

(** The automaton [load_security_example] stores in [self.dfa]; [None] when
    the [try] block raises and [self.dfa] is left as it was. *)
Definition load_security_example : option DFA :=
  dl ← read_transitions security_transitions;
  Some (DFA_init (Some security_states) (Some security_alphabet) (Some dl)
          (Some "Disarmed") (Some ["Armed_Home"; "Armed_Away"]) true).

(** The dictionary the loop builds when no round raises, and the automaton
    made from it; [load_security_example_value] below shows that this is
    what [load_security_example] stores. *)
Definition security_table : gmap string (gmap string string) :=
  default ∅ (read_transitions security_transitions).

Definition security_dfa : DFA :=
  DFA_init (Some security_states) (Some security_alphabet)
    (Some security_table) (Some "Disarmed")
    (Some ["Armed_Home"; "Armed_Away"]) true.

(** The runs printed by the module's command-line demo, and one input with
    a symbol outside the alphabet. *)
Example ends_with_ab_runs :
  (accepts ["a"; "b"] example_ends_with_ab).2 = Some true /\
  (accepts ["a"; "a"; "b"] example_ends_with_ab).2 = Some true /\
  (accepts ["a"; "b"; "a"] example_ends_with_ab).2 = Some false /\
  (accepts ["b"] example_ends_with_ab).2 = Some false /\
  (accepts [] example_ends_with_ab).2 = Some false /\
  (accepts ["a"; "c"] example_ends_with_ab).2 = None.
Proof. vm_compute. repeat split. Qed.

(** * Properties *)

(** ** The dictionary primitives *)

Section table.
Implicit Types (dl : gmap string (gmap string string)).
Implicit Types (s a t : string) (sts syms : list string).

Lemma row_setdefault_row s s' dl : row (setdefault_row s dl) s' = row dl s'.
Proof.
  unfold setdefault_row, row.
  destruct (dl !! s) eqn:Hs; [done|].
  destruct (decide (s = s')) as [<-|Hne].
  - by rewrite lookup_insert_eq, Hs.
  - by rewrite lookup_insert_ne.
Qed.

Lemma lookup_setdefault_row s s' dl :
  is_Some (setdefault_row s dl !! s') ↔ s = s' ∨ is_Some (dl !! s').
Proof.
  unfold setdefault_row.
  destruct (dl !! s) eqn:Hs.
  - split; [by right|]. intros [<-|?]; [by rewrite Hs|done].
  - rewrite lookup_insert_is_Some. destruct (decide (s = s')); naive_solver.
Qed.

Lemma row_ensure_rows sts dl s : row (ensure_rows sts dl) s = row dl s.
Proof.
  unfold ensure_rows. revert dl.
  induction sts as [|x sts IH]; intros dl; simpl; [done|].
  by rewrite IH, row_setdefault_row.
Qed.

Lemma lookup_ensure_rows sts dl s :
  is_Some (ensure_rows sts dl !! s) ↔ s ∈ sts ∨ is_Some (dl !! s).
Proof.
  unfold ensure_rows. revert dl.
  induction sts as [|x sts IH]; intros dl; simpl.
  - rewrite elem_of_nil. naive_solver.
  - rewrite IH, lookup_setdefault_row, elem_of_cons. naive_solver.
Qed.

Lemma target_ensure_rows sts dl s a :
  target (ensure_rows sts dl) s a = target dl s a.
Proof. unfold target. by rewrite row_ensure_rows. Qed.

(** What one [setdefault(s, {}).setdefault(a, t)] does to every lookup. *)
Lemma target_setdefault_entry s a t dl s' a' :
  target (setdefault_entry s a t dl) s' a' =
  if decide (s = s' ∧ a = a') then Some (default t (target dl s' a'))
  else target dl s' a'.
Proof.
  unfold target, setdefault_entry, setdefault_sym, row.
  destruct (decide (s = s')) as [<-|Hs].
  - rewrite lookup_insert_eq. simpl.
    destruct (default ∅ (dl !! s) !! a) eqn:Ha.
    + case_decide as H; [|done]. destruct H as [_ <-]. by rewrite Ha.
    + destruct (decide (a = a')) as [<-|Hne].
      * rewrite lookup_insert_eq, Ha.
        by rewrite decide_True by done.
      * rewrite lookup_insert_ne by done.
        by rewrite decide_False by naive_solver.
  - rewrite lookup_insert_ne by done.
    by rewrite decide_False by naive_solver.
Qed.

(** The inner loop over the symbols, for one source state. *)
Lemma target_fill_row s t syms dl s' a' :
  target (foldl (fun acc a => setdefault_entry s a t acc) dl syms) s' a' =
  if decide (s = s' ∧ a' ∈ syms) then Some (default t (target dl s' a'))
  else target dl s' a'.
Proof.
  revert dl. induction syms as [|x syms IH]; intros dl; simpl.
  - rewrite decide_False; [done|]. rewrite elem_of_nil. tauto.
  - rewrite IH, target_setdefault_entry.
    repeat case_decide; try done;
      rewrite ?elem_of_cons in *; try naive_solver.
Qed.

Lemma target_dead_loops syms dl s a :
  target (dead_loops syms dl) s a =
  if decide (DEAD = s ∧ a ∈ syms) then Some (default DEAD (target dl s a))
  else target dl s a.
Proof.
  unfold dead_loops. rewrite target_fill_row.
  unfold target. by rewrite row_setdefault_row.
Qed.

Lemma target_fill_missing sts syms dl s a :
  target (fill_missing sts syms dl) s a =
  if decide (s ∈ sts ∧ a ∈ syms) then Some (default DEAD (target dl s a))
  else target dl s a.
Proof.
  unfold fill_missing. revert dl.
  induction sts as [|x sts IH]; intros dl.
  - rewrite decide_False; [done|]. rewrite elem_of_nil. tauto.
  - change (foldl ?f dl (x :: sts)) with (foldl f (f dl x) sts).
    rewrite IH, target_fill_row.
    repeat case_decide; try done;
      rewrite ?elem_of_cons in *; try naive_solver.
Qed.

Lemma need_dead_true sts syms dl :
  need_dead sts syms dl = true ↔
  ∃ s a, s ∈ sts ∧ a ∈ syms ∧ target dl s a = None.
Proof.
  unfold need_dead, missing, target.
  rewrite existsb_exists. split.
  - intros (s & Hs & Ha). apply existsb_exists in Ha as (a & Ha & Hm).
    exists s, a. rewrite !list_elem_of_In.
    by apply bool_decide_eq_true in Hm.
  - intros (s & a & Hs & Ha & Hm). exists s.
    rewrite <-list_elem_of_In. split; [done|].
    apply existsb_exists. exists a. rewrite <-list_elem_of_In.
    by rewrite bool_decide_eq_true.
Qed.
End table.

(** ** Totality completion *)

Section completion.
Implicit Types (d : DFA) (s a t q : string).

Lemma adds_dead_true d :
  adds_dead d = true ↔
  ∃ s a, s ∈ states d ∧ a ∈ alphabet d ∧ target (delta d) s a = None.
Proof.
  unfold adds_dead. case_decide as Hal.
  - split; [done|]. intros (s & a & _ & Ha & _).
    rewrite Hal in Ha. by apply not_elem_of_empty in Ha.
  - rewrite need_dead_true. split; intros (s & a & Hs & Ha & Hm);
      exists s, a; rewrite ?elem_of_elements, ?target_ensure_rows in *;
      done.
Qed.

Lemma adds_dead_false d :
  adds_dead d = false ↔
  ∀ s a, s ∈ states d → a ∈ alphabet d → is_Some (target (delta d) s a).
Proof.
  rewrite <-not_true_iff_false, adds_dead_true. split.
  - intros Hno s a Hs Ha.
    destruct (target (delta d) s a) eqn:Ht; [done|].
    destruct Hno. by exists s, a.
  - intros Hall (s & a & Hs & Ha & Hm).
    destruct (Hall s a Hs Ha) as [t Ht]. congruence.
Qed.

Lemma make_total_states d :
  states (_make_total d) =
  if adds_dead d then {[DEAD]} ∪ states d else states d.
Proof.
  unfold _make_total, adds_dead. case_decide; [done|].
  by destruct (need_dead _ _ _).
Qed.

Lemma make_total_frame d :
  alphabet (_make_total d) = alphabet d ∧
  start (_make_total d) = start d ∧
  accept (_make_total d) = accept d ∧
  current (_make_total d) = current d.
Proof.
  unfold _make_total. case_decide; [done|].
  by destruct (need_dead _ _ _).
Qed.

(** Every lookup after completion, in terms of the lookup before. *)
Lemma make_total_target d s a :
  target (delta (_make_total d)) s a =
  if adds_dead d then
    if decide (s ∈ {[DEAD]} ∪ states d ∧ a ∈ alphabet d)
    then Some (default DEAD (target (delta d) s a))
    else target (delta d) s a
  else target (delta d) s a.
Proof.
  unfold _make_total, adds_dead. case_decide.
  { apply target_ensure_rows. }
  destruct (need_dead _ _ _); [|apply target_ensure_rows].
  cbn [delta]. rewrite target_fill_missing, target_dead_loops.
  rewrite target_ensure_rows.
  repeat case_decide; try done;
    rewrite ?elem_of_elements in *; try naive_solver; set_solver.
Qed.

(** The rows themselves, when no dead state is added. *)
Lemma make_total_row_unchanged d s :
  adds_dead d = false → row (delta (_make_total d)) s = row (delta d) s.
Proof.
  intros Hno. apply map_eq. intros a.
  pose proof (make_total_target d s a) as Ht.
  rewrite Hno in Ht. exact Ht.
Qed.
End completion.

(** ** The constructor *)

Section constructor.
Implicit Types (dl spec : gmap string (gmap string string)).
Implicit Types (sts : gset string) (s a t q : string).

(** Copying row by row into the empty table gives the table back, and
    adds its sources to the states. *)
Lemma copy_rows_spec spec sts :
  copy_rows spec (∅, sts) = (spec, dom spec ∪ sts).
Proof.
  unfold copy_rows.
  apply (map_fold_weak_ind
           (fun r (m : gmap string (gmap string string)) =>
              r = (m, dom m ∪ sts))).
  - by rewrite dom_empty_L, (left_id_L ∅ (∪)).
  - intros i x m r _ ->. cbn [fst snd].
    by rewrite dom_insert_L, (assoc_L (∪)).
Qed.

Lemma elem_of_row_targets (r : gmap string string) sts q :
  q ∈ map_fold (fun _ tgt acc => {[tgt]} ∪ acc) sts r ↔
  q ∈ sts ∨ ∃ a, r !! a = Some q.
Proof.
  apply (map_fold_weak_ind
           (fun acc (m : gmap string string) =>
              q ∈ acc ↔ q ∈ sts ∨ ∃ a, m !! a = Some q)).
  - split; [by left|]. intros [?|[a Ha]]; [done|].
    by rewrite lookup_empty in Ha.
  - intros i x m acc Hi IH.
    rewrite elem_of_union, elem_of_singleton, IH. split.
    + intros [->|[?|[a Ha]]]; [right; exists i|by left|right; exists a].
      * by rewrite lookup_insert_eq.
      * rewrite lookup_insert_ne; [done|]. intros ->. congruence.
    + intros [?|[a Ha]]; [by right; left|].
      destruct (decide (i = a)) as [->|Hne].
      * rewrite lookup_insert_eq in Ha. left. congruence.
      * rewrite lookup_insert_ne in Ha by done. right; right. by exists a.
Qed.

Lemma elem_of_add_targets dl sts q :
  q ∈ add_targets dl sts ↔ q ∈ sts ∨ ∃ s a, target dl s a = Some q.
Proof.
  unfold add_targets.
  apply (map_fold_weak_ind
           (fun acc (m : gmap string (gmap string string)) =>
              q ∈ acc ↔ q ∈ sts ∨ ∃ s a, target m s a = Some q)).
  - split; [by left|]. intros [?|(s & a & Hsa)]; [done|].
    unfold target, row in Hsa. by rewrite !lookup_empty in Hsa.
  - intros i x m acc Hi IH.
    rewrite elem_of_row_targets, IH. unfold target, row. split.
    + intros [[?|(s & a & Hsa)]|[a Ha]].
      * by left.
      * right. exists s, a. rewrite lookup_insert_ne; [done|].
        intros ->. rewrite Hi in Hsa. cbn [default] in Hsa.
        by rewrite lookup_empty in Hsa.
      * right. exists i, a. by rewrite lookup_insert_eq.
    + intros [?|(s & a & Hsa)]; [by left; left|].
      destruct (decide (i = s)) as [->|Hne].
      * rewrite lookup_insert_eq in Hsa. right. by exists a.
      * rewrite lookup_insert_ne in Hsa by done. left; right. by exists s, a.
Qed.

Context (states0 alphabet0 : option (list string)).
Context (delta0 : option (gmap string (gmap string string))).
Context (start0 : option string) (accept0 : option (list string)).

Local Abbreviation d0 := (assemble states0 alphabet0 delta0 start0 accept0).

Lemma assemble_fields :
  alphabet d0 = list_to_set (default [] alphabet0) ∧
  delta d0 = default ∅ delta0 ∧
  start d0 = start0 ∧
  accept d0 = list_to_set (default [] accept0) ∧
  current d0 = None.
Proof.
  unfold d0, assemble. destruct delta0 as [spec|]; [|done].
  by rewrite copy_rows_spec.
Qed.

Lemma elem_of_assemble_states q :
  q ∈ states d0 ↔
  q ∈ default [] states0 ∨ q ∈ dom (default ∅ delta0) ∨
  ∃ s a, target (default ∅ delta0) s a = Some q.
Proof.
  unfold d0, assemble. destruct delta0 as [spec|]; cbn [default].
  - rewrite copy_rows_spec. cbn [states].
    rewrite elem_of_add_targets, elem_of_union, elem_of_list_to_set.
    naive_solver.
  - cbn [states].
    rewrite elem_of_add_targets, elem_of_list_to_set, dom_empty_L.
    rewrite elem_of_empty. naive_solver.
Qed.

(** Every target of the assembled table is a known state. *)
Lemma assemble_targets_known s a t :
  target (delta d0) s a = Some t → t ∈ states d0.
Proof.
  intros Ht. apply elem_of_assemble_states. right; right.
  exists s, a. by destruct assemble_fields as (_ & <- & _).
Qed.

Lemma DFA_init_unfold make_total :
  DFA_init states0 alphabet0 delta0 start0 accept0 make_total =
  reset (if make_total then _make_total d0 else d0).
Proof. done. Qed.
End constructor.

(** ** Simulation *)

Section simulation.
Implicit Types (d : DFA) (w : list string) (a x q : string).

Lemma structure_eq d d' :
  structure d = structure d' → current d = current d' → d = d'.
Proof.
  destruct d, d'. unfold structure. cbn. intros [= -> -> -> -> ->] ->.
  done.
Qed.

Lemma structure_reset d : structure (reset d) = structure d.
Proof. done. Qed.

Lemma structure_step a d : structure (step a d).1 = structure d.
Proof.
  unfold step. case_decide; [|done]. by destruct (current d).
Qed.

Lemma structure_run_loop w d : structure (run_loop w d).1 = structure d.
Proof.
  revert d. induction w as [|ch w IH]; intros d; cbn [run_loop]; [done|].
  case_decide; [|done]. by rewrite IH, structure_step.
Qed.

Lemma structure_run w d : structure (run w d).1 = structure d.
Proof. unfold run. by rewrite structure_run_loop. Qed.

Lemma accepts_fst w d : (accepts w d).1 = (run w d).1.
Proof. unfold accepts. by destruct (run w d) as [d' [q|]]. Qed.

Lemma accepts_snd w d :
  (accepts w d).2 =
  (fun q => bool_decide (q ∈ accept d)) <$> (run w d).2.
Proof.
  unfold accepts. pose proof (structure_run w d) as Hst.
  destruct (run w d) as [d' [q|]]; [|done]. cbn in *.
  unfold structure in Hst. by injection Hst as _ _ _ _ ->.
Qed.

Lemma structure_accepts w d : structure (accepts w d).1 = structure d.
Proof. by rewrite accepts_fst, structure_run. Qed.

Lemma structure_simulate c d : structure (simulate c d) = structure d.
Proof.
  destruct c; cbn [simulate];
    auto using structure_reset, structure_step, structure_run,
               structure_accepts.
Qed.

(** [run] and [accepts] never read the cursor they are handed. *)
Lemma run_structure d d' w :
  structure d = structure d' → run w d = run w d'.
Proof.
  intros Hst. unfold run. f_equal. apply structure_eq.
  - by rewrite !structure_reset.
  - unfold structure in Hst. by injection Hst.
Qed.

Lemma accepts_structure d d' w :
  structure d = structure d' → accepts w d = accepts w d'.
Proof. intros Hst. unfold accepts. by rewrite (run_structure d d'). Qed.

Lemma alphabet_step a d : alphabet (step a d).1 = alphabet d.
Proof.
  pose proof (structure_step a d) as Hst.
  unfold structure in Hst. by injection Hst as _ -> _ _ _.
Qed.

(** The loop of [run] stops at the first symbol outside the alphabet. *)
Lemma run_loop_abort pre x post d :
  Forall (fun a => a ∈ alphabet d) pre → x ∉ alphabet d →
  run_loop (pre ++ x :: post) d = ((run_loop pre d).1, None).
Proof.
  intros Hpre Hx. revert d Hpre Hx.
  induction pre as [|ch pre IH]; intros d Hpre Hx; cbn [app run_loop].
  - by rewrite decide_False.
  - apply Forall_cons in Hpre as [Hch Hpre].
    rewrite !decide_True by done.
    apply IH; by rewrite alphabet_step.
Qed.

Lemma first_invalid_symbol (al : gset string) w x :
  x ∈ w → x ∉ al →
  ∃ pre y post,
    w = (pre ++ y :: post) ∧ Forall (fun a => a ∈ al) pre ∧ y ∉ al.
Proof.
  induction w as [|ch w IH]; intros Hin Hx.
  - by apply elem_of_nil in Hin.
  - destruct (decide (ch ∈ al)) as [Hch|Hch].
    + apply elem_of_cons in Hin as [->|Hin]; [done|].
      destruct (IH Hin Hx) as (pre & y & post & -> & Hpre & Hy).
      exists (ch :: pre), y, post.
      split_and!; [done|by constructor|done].
    + by exists [], ch, w.
Qed.

(** With an unset cursor the loop of [run] never sets it. *)
Lemma run_loop_unset w d :
  current d = None →
  (run_loop w d).2 = None ∧ current (run_loop w d).1 = None.
Proof.
  revert d. induction w as [|ch w IH]; intros d Hc; cbn [run_loop].
  - done.
  - case_decide; [|done]. apply IH.
    unfold step. rewrite decide_True by done. by rewrite Hc.
Qed.

(** [step] on a symbol of the alphabet, from a set cursor, is the table
    lookup. *)
Lemma step_lookup a q d :
  a ∈ alphabet d → current d = Some q →
  (step a d).2 = target (delta d) q a ∧
  current (step a d).1 = target (delta d) q a.
Proof.
  intros Ha Hc. unfold step. rewrite decide_True by done. by rewrite Hc.
Qed.
End simulation.

(** * The specification's claims about simulation *)

(** C3.  If the sequence [w] holds a symbol outside the alphabet, [run w]
    and [accepts w] both return [None], whatever stands before or after
    that symbol.  The run is cut at the first such symbol [y]: the object is
    left exactly as running the prefix before [y] leaves it. *)
Theorem invalid_symbol_short_circuit (d : DFA) (w : list string) (x : string) :
  x ∈ w → x ∉ alphabet d →
  (run w d).2 = None ∧ (accepts w d).2 = None ∧
  ∃ pre y post,
    w = (pre ++ y :: post) ∧
    Forall (fun a => a ∈ alphabet d) pre ∧ (y ∉ alphabet d) ∧
    (run w d).1 = (run pre d).1 ∧ (accepts w d).1 = (accepts pre d).1.
Proof.
  intros Hin Hx.
  destruct (first_invalid_symbol (alphabet d) w x Hin Hx)
    as (pre & y & post & -> & Hpre & Hy).
  assert (run (pre ++ y :: post) d = ((run pre d).1, None)) as Hrun.
  { unfold run. by apply run_loop_abort. }
  split_and!.
  - by rewrite Hrun.
  - by rewrite accepts_snd, Hrun.
  - exists pre, y, post. rewrite !accepts_fst, Hrun. done.
Qed.

Lemma invalid_symbol_short_circuit_witness :
  (run ["a"; "c"; "b"] example_ends_with_ab).2 = None ∧
  (accepts ["a"; "c"; "b"] example_ends_with_ab).2 = None.
Proof.
  destruct (invalid_symbol_short_circuit
              example_ends_with_ab ["a"; "c"; "b"] "c") as (Hr & Ha & _).
  - compute_done.
  - compute_done.
  - exact (conj Hr Ha).
Defined.

(** C4.  Running the same sequence twice in a row gives the same final
    state and the same acceptance result, and neither depends on the value
    the cursor had before the call. *)
Theorem run_deterministic (d : DFA) (w : list string) :
  (run w (run w d).1).2 = (run w d).2 ∧
  (accepts w (accepts w d).1).2 = (accepts w d).2 ∧
  ∀ c : option string,
    let d' := mkDFA (states d) (alphabet d) (delta d) (start d) (accept d) c in
    (run w d').2 = (run w d).2 ∧ (accepts w d').2 = (accepts w d).2.
Proof.
  split_and!.
  - by rewrite (run_structure _ d) by apply structure_run.
  - by rewrite (accepts_structure _ d) by apply structure_accepts.
  - intros c d'. assert (structure d' = structure d) as Hst by done.
    by rewrite (run_structure _ _ w Hst), (accepts_structure _ _ w Hst).
Qed.

(** C6, as the code has it.  [run []] returns [start], set or not.
    [accepts []] is the membership of [start] in [accept] when [start] is
    set, and [None] when it is not. *)
Theorem run_accepts_empty (d : DFA) :
  (run [] d).2 = start d ∧
  (accepts [] d).2 = (fun q => bool_decide (q ∈ accept d)) <$> start d ∧
  (run [] (reset d)).2 = start d.
Proof. rewrite accepts_snd. done. Qed.

(** C6 as stated fails without a start state: [accepts []] is then [None],
    not a truth value. *)
Lemma accepts_empty_counterexample :
  start example_default = None ∧
  ∀ b : bool, (accepts [] example_default).2 ≠ Some b.
Proof. split; [reflexivity|]. intros b. vm_compute. discriminate. Qed.

(** C9.  [reset], [step], [run] and [accepts], and any sequence of them,
    leave [states], [alphabet], [delta], [start] and [accept] as they were. *)
Theorem simulation_preserves_structure (d : DFA) (cs : list sim_call) :
  structure (simulate_all cs d) = structure d ∧
  structure (reset d) = structure d ∧
  (∀ a, structure (step a d).1 = structure d) ∧
  (∀ w, structure (run w d).1 = structure d) ∧
  (∀ w, structure (accepts w d).1 = structure d).
Proof.
  split_and!;
    auto using structure_reset, structure_step, structure_run,
               structure_accepts.
  unfold simulate_all. revert d.
  induction cs as [|c cs IH]; intros d; [done|].
  change (foldl ?f d (c :: cs)) with (foldl f (f d c) cs).
  by rewrite IH, structure_simulate.
Qed.

(** C10.  Without a start state, [run] and [accepts] return [None] on every
    sequence, the empty one and those over the alphabet included, and the
    cursor stays unset. *)
Theorem unset_start_invalid (d : DFA) (w : list string) :
  start d = None →
  (run w d).2 = None ∧ (accepts w d).2 = None ∧
  current (run w d).1 = None ∧ current (accepts w d).1 = None.
Proof.
  intros Hs.
  destruct (run_loop_unset w (reset d) Hs) as [Hrun Hcur].
  fold (run w d) in Hrun, Hcur.
  by rewrite accepts_snd, accepts_fst, Hrun.
Qed.

Lemma unset_start_invalid_witness :
  Forall (fun a => a ∈ alphabet example_no_start) ["a"; "a"] ∧
  (run ["a"; "a"] example_no_start).2 = None ∧
  (accepts ["a"; "a"] example_no_start).2 = None ∧
  (accepts [] example_no_start).2 = None.
Proof.
  split; [|split].
  - compute_done.
  - apply (unset_start_invalid example_no_start ["a"; "a"]). reflexivity.
  - split.
    + apply (unset_start_invalid example_no_start ["a"; "a"]). reflexivity.
    + apply (unset_start_invalid example_no_start []). reflexivity.
Defined.

(** * The specification's claims about totality completion *)

Section completion_invariants.
Implicit Types (d : DFA) (s a t : string).

Lemma make_total_total d s a :
  s ∈ states (_make_total d) → a ∈ alphabet d →
  is_Some (target (delta (_make_total d)) s a).
Proof.
  rewrite make_total_states, make_total_target.
  destruct (adds_dead d) eqn:Hdead; intros Hs Ha.
  - by rewrite decide_True.
  - by apply adds_dead_false.
Qed.

Lemma make_total_targets_known d :
  targets_known d → targets_known (_make_total d).
Proof.
  intros Hknown s a t.
  rewrite make_total_states, make_total_target.
  destruct (adds_dead d); [|apply Hknown].
  case_decide as Hsa.
  - destruct (target (delta d) s a) as [t'|] eqn:Ht; intros [= <-].
    + apply elem_of_union_r. by eapply Hknown.
    + apply elem_of_union_l. by apply elem_of_singleton.
  - intros Ht. apply elem_of_union_r. by eapply Hknown.
Qed.
End completion_invariants.

(** C2, as the code has it.  When [_make_total] adds the dead state, and
    the name [DEAD] was neither in [accept] nor the source of a transition
    to another state, the dead state loops to itself on every symbol of the
    alphabet, [step] from it stays in it, and it is not in [accept]. *)
Theorem dead_state_absorbing (d : DFA) (a : string) :
  adds_dead d = true →
  DEAD ∉ accept d →
  (∀ x t, x ∈ alphabet d → target (delta d) DEAD x = Some t → t = DEAD) →
  a ∈ alphabet d →
  let d' := _make_total d in
  DEAD ∈ states d' ∧
  target (delta d') DEAD a = Some DEAD ∧
  (DEAD ∉ accept d') ∧
  ∀ d'', structure d'' = structure d' → current d'' = Some DEAD →
         (step a d'').2 = Some DEAD ∧ current (step a d'').1 = Some DEAD.
Proof.
  intros Hdead Hacc Hrow Ha d'.
  destruct (make_total_frame d) as (Hal & _ & Hac & _).
  assert (target (delta d') DEAD a = Some DEAD) as Hloop.
  { subst d'. rewrite make_total_target, Hdead.
    rewrite decide_True by (split; [set_solver|done]).
    destruct (target (delta d) DEAD a) as [t|] eqn:Ht; [|done].
    by rewrite (Hrow a t Ha Ht). }
  split_and!.
  - subst d'. rewrite make_total_states, Hdead. set_solver.
  - done.
  - subst d'. by rewrite Hac.
  - intros d'' Hst Hc. unfold structure in Hst.
    injection Hst as _ Hal' Hdl' _ _.
    rewrite <-Hloop, <-Hdl'.
    apply step_lookup; [|done]. rewrite Hal'. subst d'. by rewrite Hal.
Qed.

Lemma dead_state_absorbing_witness :
  target (delta (_make_total example_partial)) DEAD "a" = Some DEAD ∧
  DEAD ∉ accept (_make_total example_partial).
Proof.
  destruct (dead_state_absorbing example_partial "a") as (_ & Hl & Ha & _).
  - reflexivity.
  - compute_done.
  - intros x t _ Ht. vm_compute in Ht. discriminate.
  - compute_done.
  - exact (conj Hl Ha).
Defined.

(** C2 as stated fails when the caller already uses the name [DEAD]:
    listed in [accept0], the dead state that completion adds is accepting;
    given a transition of its own, it is not absorbing. *)
Lemma dead_state_counterexample :
  (let d0 := assemble (Some ["q0"]) (Some ["a"]) None (Some "q0")
                      (Some [DEAD]) in
   let d := DFA_init (Some ["q0"]) (Some ["a"]) None (Some "q0")
                     (Some [DEAD]) true in
   adds_dead d0 = true ∧ (DEAD ∉ states d0) ∧ DEAD ∈ states d ∧
   DEAD ∈ accept d) ∧
  (let spec := <[DEAD := <["a" := "q0"]> ∅]> ∅ in
   let d0 := assemble (Some ["q0"]) (Some ["a"]) (Some spec) (Some "q0")
                      None in
   let d := DFA_init (Some ["q0"]) (Some ["a"]) (Some spec) (Some "q0")
                     None true in
   adds_dead d0 = true ∧ "a" ∈ alphabet d ∧
   target (delta d) DEAD "a" = Some "q0").
Proof.
  split; cbv zeta; split_and!; try reflexivity; compute_done.
Qed.

(** C5.  On an automaton whose table is already total, [_make_total] takes
    no dead state and leaves [states], [alphabet], every row of the table,
    [start], [accept] and [current] as they were.  The only keys it may add
    to [delta] are those of states that had no row, with an empty row. *)
Theorem make_total_noop (d : DFA) :
  (∀ s a, s ∈ states d → a ∈ alphabet d → is_Some (target (delta d) s a)) →
  let d' := _make_total d in
  adds_dead d = false ∧
  states d' = states d ∧
  alphabet d' = alphabet d ∧
  (∀ s, row (delta d') s = row (delta d) s) ∧
  (∀ s a, target (delta d') s a = target (delta d) s a) ∧
  (∀ s, is_Some (delta d' !! s) ↔ s ∈ states d ∨ is_Some (delta d !! s)) ∧
  start d' = start d ∧ accept d' = accept d ∧ current d' = current d.
Proof.
  intros Htotal d'. apply adds_dead_false in Htotal.
  destruct (make_total_frame d) as (Hal & Hst & Hac & Hcu).
  split_and!; try done.
  - subst d'. by rewrite make_total_states, Htotal.
  - intros s. by apply make_total_row_unchanged.
  - intros s a. subst d'. unfold target.
    by rewrite make_total_row_unchanged.
  - intros s. subst d'. unfold _make_total.
    unfold adds_dead in Htotal. case_decide.
    + cbn [delta]. by rewrite lookup_ensure_rows, elem_of_elements.
    + rewrite Htotal. cbn [delta].
      by rewrite lookup_ensure_rows, elem_of_elements.
Qed.

Lemma make_total_noop_witness :
  states (_make_total example_ends_with_ab) = states example_ends_with_ab ∧
  DEAD ∉ states (_make_total example_ends_with_ab).
Proof.
  destruct (make_total_noop example_ends_with_ab) as (_ & Hs & _).
  - intros s a Hs Ha. apply adds_dead_false; [reflexivity|done..].
  - split; [exact Hs|]. rewrite Hs. compute_done.
Defined.

(** * The membership invariant [accept ⊆ states] *)

Section accept_invariant.
Implicit Types (d : DFA) (q : string).

Lemma make_total_states_grow d : states d ⊆ states (_make_total d).
Proof.
  rewrite make_total_states. destruct (adds_dead d); set_solver.
Qed.

Lemma perform_accept_known c d :
  accept d ⊆ states d → accept (perform c d) ⊆ states (perform c d).
Proof.
  intros Hinv. destruct c as [name [|]|src symbol tgt| |c]; cbn.
  - set_solver.
  - set_solver.
  - set_solver.
  - destruct (make_total_frame d) as (_ & _ & -> & _).
    pose proof (make_total_states_grow d). set_solver.
  - pose proof (structure_simulate c d) as Hst.
    unfold structure in Hst. by injection Hst as -> _ _ _ ->.
Qed.
End accept_invariant.

(** C7, as the code has it.  The constructor gives [accept ⊆ states] when
    every accept state it is handed is among the states it is handed or a
    source or a target of the transition specification.  From any object
    where [accept ⊆ states] holds, every sequence of [add_state],
    [add_transition], [_make_total], [reset], [step], [run] and [accepts]
    keeps it. *)
Theorem accept_subset_states_preserved :
  (∀ (states0 alphabet0 : option (list string))
     (delta0 : option (gmap string (gmap string string)))
     (start0 : option string) (accept0 : option (list string))
     (make_total : bool),
     (∀ q, q ∈ default [] accept0 →
           q ∈ default [] states0 ∨ q ∈ dom (default ∅ delta0) ∨
           ∃ s a, target (default ∅ delta0) s a = Some q) →
     let d := DFA_init states0 alphabet0 delta0 start0 accept0 make_total in
     accept d ⊆ states d) ∧
  (∀ (d : DFA) (cs : list call),
     accept d ⊆ states d →
     accept (perform_all cs d) ⊆ states (perform_all cs d)).
Proof.
  split.
  - intros states0 alphabet0 delta0 start0 accept0 make_total Hacc d.
    subst d. rewrite DFA_init_unfold.
    set (d0 := assemble states0 alphabet0 delta0 start0 accept0).
    assert (accept d0 ⊆ states d0) as Hinv.
    { intros q Hq. apply elem_of_assemble_states, Hacc.
      destruct (assemble_fields states0 alphabet0 delta0 start0 accept0)
        as (_ & _ & _ & Hac & _).
      fold d0 in Hac. rewrite Hac in Hq. by apply elem_of_list_to_set in Hq. }
    destruct make_total; cbn [reset accept states]; [|done].
    apply (perform_accept_known MakeTotal d0 Hinv).
  - intros d cs. unfold perform_all. revert d.
    induction cs as [|c cs IH]; intros d Hinv; [done|].
    change (foldl ?f d (c :: cs)) with (foldl f (f d c) cs).
    by apply IH, perform_accept_known.
Qed.

Lemma accept_subset_states_preserved_witness :
  accept example_ends_with_ab ⊆ states example_ends_with_ab ∧
  (let d := perform_all [AddState "q3" true; AddTransition "q3" "c" "q4";
                         MakeTotal; Sim (Run ["a"; "c"])]
                        example_ends_with_ab in
   accept d ⊆ states d).
Proof.
  destruct accept_subset_states_preserved as [Hinit Hkeep].
  assert (accept example_ends_with_ab ⊆ states example_ends_with_ab) as H0.
  { apply Hinit. intros q Hq. left. cbn [default] in *.
    apply list_elem_of_singleton in Hq as ->. compute_done. }
  split; [exact H0|]. apply Hkeep, H0.
Defined.

(** C7 as stated fails at construction: an accept state that is not among
    the states is kept in [accept] and not added to [states]. *)
Lemma accept_subset_states_counterexample :
  "q1" ∈ accept example_stray_accept ∧
  ("q1" ∉ states example_stray_accept) ∧
  ¬ (accept example_stray_accept ⊆ states example_stray_accept).
Proof.
  assert ("q1" ∈ accept example_stray_accept) as Hin by compute_done.
  assert ("q1" ∉ states example_stray_accept) as Hout by compute_done.
  split_and!; [done..|]. intros Hsub. by apply Hout, Hsub.
Qed.

(** * The partial two-state scenario *)

Section two_states.
Implicit Types (d : DFA) (s a t : string).

Lemma make_total_keeps d s a t :
  target (delta d) s a = Some t →
  target (delta (_make_total d)) s a = Some t.
Proof.
  intros Ht. rewrite make_total_target, Ht.
  destruct (adds_dead d); [|done]. by case_decide.
Qed.

Lemma make_total_fills d s a :
  adds_dead d = true → s ∈ states d → a ∈ alphabet d →
  target (delta (_make_total d)) s a =
  Some (default DEAD (target (delta d) s a)).
Proof.
  intros Hdead Hs Ha. rewrite make_total_target, Hdead.
  rewrite decide_True; [done|]. split; [set_solver|done].
Qed.

Lemma make_total_new_entry d s a :
  target (delta d) s a = None →
  is_Some (target (delta (_make_total d)) s a) →
  a ∈ alphabet d.
Proof.
  rewrite make_total_target. intros Hnone.
  destruct (adds_dead d).
  - case_decide as Hsa; [by destruct Hsa|].
    rewrite Hnone. by intros [? ?].
  - rewrite Hnone. by intros [? ?].
Qed.
End two_states.

(** C8, as the code has it.  Take an automaton that, before completion, has
    the two states [p], [q], neither named [DEAD], the two symbols [a], [b],
    and an entry for exactly one of the four pairs.  Built with
    [make_total=True] it has one state more, [DEAD], three states in all;
    exactly three of the four pairs get a new entry, each pointing at
    [DEAD]; no other new entry has [p] or [q] as its source; and the entry
    that was there keeps its target. *)
Theorem partial_table_completion
    (states0 alphabet0 : option (list string))
    (delta0 : option (gmap string (gmap string string)))
    (start0 : option string) (accept0 : option (list string))
    (p q a b : string) :
  let d0 := DFA_init states0 alphabet0 delta0 start0 accept0 false in
  let d1 := DFA_init states0 alphabet0 delta0 start0 accept0 true in
  let grid := [(p, a); (p, b); (q, a); (q, b)] in
  states d0 = {[p; q]} → p ≠ q →
  alphabet d0 = {[a; b]} → a ≠ b →
  length (List.filter (defined_in (delta d0)) grid) = 1 →
  DEAD ∉ states d0 →
  size (states d0) = 2 ∧
  states d1 = {[DEAD]} ∪ states d0 ∧
  size (states d1) = 3 ∧
  length (List.filter (filled_with_dead (delta d0) (delta d1)) grid) = 3 ∧
  (∀ s x, s ∈ states d0 → target (delta d0) s x = None →
          is_Some (target (delta d1) s x) → (s, x) ∈ grid) ∧
  (∀ s x t, target (delta d0) s x = Some t → target (delta d1) s x = Some t).
Proof.
  intros d0 d1 grid Hsts Hpq Hal Hab Hone Hdead.
  subst d0 d1. rewrite !DFA_init_unfold in *.
  set (d := assemble states0 alphabet0 delta0 start0 accept0) in *.
  cbn [reset states alphabet delta] in *. clearbody d.
  assert (adds_dead d = true) as Hadd.
  { apply adds_dead_true. rewrite Hsts, Hal.
    subst grid. unfold defined_in in Hone. cbn [List.filter fst snd] in Hone.
    destruct (target (delta d) p a) eqn:Hpa; [|exists p, a; set_solver].
    destruct (target (delta d) p b) eqn:Hpb; [|exists p, b; set_solver].
    by cbn in Hone. }
  assert (size (states d) = 2) as Hsize.
  { rewrite Hsts, size_union, !size_singleton by set_solver. done. }
  split_and!.
  - done.
  - by rewrite make_total_states, Hadd.
  - rewrite make_total_states, Hadd, size_union, size_singleton, Hsize
      by set_solver. done.
  - subst grid. unfold defined_in in Hone. unfold filled_with_dead.
    cbn [List.filter fst snd] in *.
    rewrite !make_total_fills by (rewrite ?Hsts, ?Hal; set_solver).
    destruct (target (delta d) p a), (target (delta d) p b),
      (target (delta d) q a), (target (delta d) q b);
      cbn in Hone; try discriminate Hone;
      cbn; by rewrite !bool_decide_eq_true_2 by done.
  - intros s x Hs Hnone Hsome.
    apply make_total_new_entry in Hsome; [|done].
    rewrite Hsts in Hs. rewrite Hal in Hsome. subst grid. set_solver.
  - intros s x t. apply make_total_keeps.
Qed.


Lemma partial_table_completion_witness :
  let d1 := DFA_init (Some ["q0"; "q1"]) (Some ["a"; "b"])
              (Some (<["q0" := <["a" := "q1"]> ∅]> ∅))
              (Some "q0") (Some ["q1"]) true in
  size (states d1) = 3 ∧ DEAD ∈ states d1.
Proof.
  destruct (partial_table_completion
              (Some ["q0"; "q1"]) (Some ["a"; "b"])
              (Some (<["q0" := <["a" := "q1"]> ∅]> ∅))
              (Some "q0") (Some ["q1"]) "q0" "q1" "a" "b")
    as (_ & Hst & Hsz & _).
  - compute_done.
  - compute_done.
  - compute_done.
  - compute_done.
  - reflexivity.
  - compute_done.
  - cbv zeta. split; [exact Hsz|]. rewrite Hst. set_solver.
Defined.

(** C8 as stated fails when one of the two states is itself named [DEAD]:
    completion then fills the three missing entries with [DEAD] and adds no
    state, so [states] stays at two. *)
Lemma partial_table_dead_name_counterexample :
  let spec := <["q0" := <["a" := "q0"]> ∅]> ∅ in
  let d0 := DFA_init (Some [DEAD; "q0"]) (Some ["a"; "b"]) (Some spec)
              (Some "q0") None false in
  let d1 := DFA_init (Some [DEAD; "q0"]) (Some ["a"; "b"]) (Some spec)
              (Some "q0") None true in
  let grid := [(DEAD, "a"); (DEAD, "b"); ("q0", "a"); ("q0", "b")] in
  states d0 = {[DEAD; "q0"]} ∧ size (states d0) = 2 ∧
  alphabet d0 = {["a"; "b"]} ∧
  length (List.filter (defined_in (delta d0)) grid) = 1 ∧
  length (List.filter (filled_with_dead (delta d0) (delta d1)) grid) = 3 ∧
  states d1 = states d0 ∧ size (states d1) = 2.
Proof. cbv zeta. split_and!; try reflexivity; compute_done. Qed.

(** * Further properties of the class *)

(** ** Rows of the table *)

Section rows.
Implicit Types (dl : gmap string (gmap string string)).
Implicit Types (d : DFA) (s a t q : string) (sts syms : list string).

Lemma lookup_setdefault_entry s a t dl s' :
  is_Some (setdefault_entry s a t dl !! s') ↔ s = s' ∨ is_Some (dl !! s').
Proof.
  unfold setdefault_entry. rewrite lookup_insert_is_Some.
  destruct (decide (s = s')); naive_solver.
Qed.

Lemma lookup_fill_row s t syms dl s' :
  is_Some (foldl (fun acc a => setdefault_entry s a t acc) dl syms !! s') ↔
  (s = s' ∧ syms ≠ []) ∨ is_Some (dl !! s').
Proof.
  revert dl. induction syms as [|x syms IH]; intros dl.
  - cbn. naive_solver.
  - change (foldl ?f dl (x :: syms)) with (foldl f (f dl x) syms).
    rewrite IH, lookup_setdefault_entry. destruct syms; naive_solver.
Qed.

Lemma lookup_fill_missing sts syms dl s :
  is_Some (fill_missing sts syms dl !! s) ↔
  (s ∈ sts ∧ syms ≠ []) ∨ is_Some (dl !! s).
Proof.
  unfold fill_missing. revert dl.
  induction sts as [|x sts IH]; intros dl.
  - cbn. rewrite elem_of_nil. naive_solver.
  - change (foldl ?f dl (x :: sts)) with (foldl f (f dl x) sts).
    rewrite IH, lookup_fill_row, elem_of_cons. naive_solver.
Qed.

Lemma lookup_dead_loops syms dl s :
  is_Some (dead_loops syms dl !! s) ↔ DEAD = s ∨ is_Some (dl !! s).
Proof.
  unfold dead_loops. rewrite lookup_fill_row, lookup_setdefault_row.
  naive_solver.
Qed.

(** The keys of the table after completion. *)
Lemma make_total_lookup d s :
  is_Some (delta (_make_total d) !! s) ↔
  s ∈ states (_make_total d) ∨ is_Some (delta d !! s).
Proof.
  rewrite make_total_states. unfold _make_total, adds_dead.
  case_decide as Hal.
  { cbn [delta]. by rewrite lookup_ensure_rows, elem_of_elements. }
  destruct (need_dead _ _ _); cbn [delta].
  - rewrite lookup_fill_missing, lookup_dead_loops, lookup_ensure_rows.
    rewrite !elem_of_elements, elem_of_union, elem_of_singleton.
    assert (elements (alphabet d) ≠ []) as Hne.
    { intros Hnil. apply Hal. by apply elements_empty_inv, leibniz_equiv in Hnil. }
    naive_solver.
  - by rewrite lookup_ensure_rows, elem_of_elements.
Qed.

(** Running the first loop again changes nothing once every state has a
    row. *)
Lemma ensure_rows_id sts dl :
  (∀ s, s ∈ sts → is_Some (dl !! s)) → ensure_rows sts dl = dl.
Proof.
  unfold ensure_rows. revert dl.
  induction sts as [|x sts IH]; intros dl Hrows; [done|].
  change (foldl ?f dl (x :: sts)) with (foldl f (f dl x) sts). cbn beta.
  assert (setdefault_row x dl = dl) as ->.
  { unfold setdefault_row. destruct (Hrows x) as [r ->]; [|done].
    by apply elem_of_cons; left. }
  apply IH. intros s Hs. apply Hrows. by apply elem_of_cons; right.
Qed.

Lemma add_transition_target src symbol tgt d s a :
  target (delta (add_transition src symbol tgt d)) s a =
  if decide (s = src ∧ a = symbol) then Some tgt else target (delta d) s a.
Proof.
  unfold add_transition, target, row. cbn [delta].
  destruct (decide (s = src)) as [->|Hs].
  - rewrite lookup_insert_eq. cbn [default id].
    destruct (decide (a = symbol)) as [->|Ha].
    + rewrite lookup_insert_eq. by rewrite decide_True.
    + rewrite lookup_insert_ne by done. by rewrite decide_False by naive_solver.
  - rewrite lookup_insert_ne by done. by rewrite decide_False by naive_solver.
Qed.
End rows.

(** ** Sources and targets are states *)

Section closed.
Implicit Types (d : DFA) (s a t q : string).

Lemma assemble_sources_known states0 alphabet0 delta0 start0 accept0 :
  sources_known (assemble states0 alphabet0 delta0 start0 accept0).
Proof.
  intros s Hs. apply elem_of_assemble_states. right; left.
  by destruct (assemble_fields states0 alphabet0 delta0 start0 accept0)
    as (_ & <- & _).
Qed.

Lemma make_total_sources_known d :
  sources_known d → sources_known (_make_total d).
Proof.
  intros Hd s Hs. apply elem_of_dom, make_total_lookup in Hs as [Hs|Hs].
  - done.
  - apply make_total_states_grow, Hd. by apply elem_of_dom.
Qed.

Lemma perform_closed c d :
  sources_known d ∧ targets_known d →
  sources_known (perform c d) ∧ targets_known (perform c d).
Proof.
  intros [Hsrc Htgt].
  destruct c as [name is_accept|src symbol tgt| |c]; cbn [perform].
  - split.
    + intros s Hs. apply elem_of_union_r. by apply Hsrc.
    + intros s a t Ht. apply elem_of_union_r. by eapply Htgt.
  - split.
    + intros s Hs. unfold add_transition in *. cbn [delta states] in *.
      rewrite dom_insert_L in Hs. unfold sources_known in Hsrc. set_solver.
    + intros s a t. rewrite add_transition_target.
      unfold add_transition. cbn [states]. case_decide.
      * intros [= <-]. set_solver.
      * intros Ht. apply Htgt in Ht. set_solver.
  - auto using make_total_sources_known, make_total_targets_known.
  - pose proof (structure_simulate c d) as Hst.
    unfold structure in Hst. injection Hst as Hs _ Hd _ _.
    unfold sources_known, targets_known. by rewrite Hs, Hd.
Qed.

Lemma constructed_closed states0 alphabet0 delta0 start0 accept0 make_total :
  let d := DFA_init states0 alphabet0 delta0 start0 accept0 make_total in
  sources_known d ∧ targets_known d.
Proof.
  intros d. subst d. rewrite DFA_init_unfold.
  set (d0 := assemble states0 alphabet0 delta0 start0 accept0).
  assert (sources_known d0 ∧ targets_known d0) as Hd0.
  { split; [apply assemble_sources_known|].
    intros ???. apply assemble_targets_known. }
  destruct make_total.
  - apply (perform_closed (Sim Reset)), (perform_closed MakeTotal), Hd0.
  - apply (perform_closed (Sim Reset)), Hd0.
Qed.
End closed.

Lemma constructed_total
    (states0 alphabet0 : option (list string))
    (delta0 : option (gmap string (gmap string string)))
    (start0 : option string) (accept0 : option (list string)) :
  total (reset (DFA_init states0 alphabet0 delta0 start0 accept0 true)).
Proof.
  intros s a Hs Ha. rewrite DFA_init_unfold in *.
  cbn [reset states alphabet delta] in *.
  apply make_total_total; [done|].
  by destruct (make_total_frame
                 (assemble states0 alphabet0 delta0 start0 accept0))
    as (<- & _).
Qed.

(** C1, as the code has it.  After construction with [make_total=True],
    every state [s] of [states] has, on every symbol [a] of [alphabet], a
    table entry, and its target is again in [states]; so [step a] called
    with the cursor on such an [s] returns that target, never [None].  A
    cursor value [s] that is not in [states] has no row in the table, and
    [step a] called with the cursor on it returns [None] and unsets the
    cursor. *)
Theorem make_total_step_defined
    (states0 alphabet0 : option (list string))
    (delta0 : option (gmap string (gmap string string)))
    (start0 : option string) (accept0 : option (list string))
    (s a : string) :
  let d := DFA_init states0 alphabet0 delta0 start0 accept0 true in
  a ∈ alphabet d →
  (s ∈ states d →
   ∃ t, target (delta d) s a = Some t ∧ t ∈ states d ∧
        ∀ d', structure d' = structure d → current d' = Some s →
              (step a d').2 = Some t ∧ current (step a d').1 = Some t) ∧
  (s ∉ states d →
   delta d !! s = None ∧
   ∀ d', structure d' = structure d → current d' = Some s →
         (step a d').2 = None ∧ current (step a d').1 = None).
Proof.
  intros d Ha.
  destruct (constructed_closed states0 alphabet0 delta0 start0 accept0 true)
    as [Hsrc Hknown]. fold d in Hsrc, Hknown.
  pose proof (constructed_total states0 alphabet0 delta0 start0 accept0)
    as Htot.
  change (total d) in Htot. clearbody d.
  assert (∀ d' t, structure d' = structure d → current d' = Some s →
                  target (delta d) s a = t →
                  (step a d').2 = t ∧ current (step a d').1 = t) as Hstep.
  { intros d' t Hst Hc <-. unfold structure in Hst.
    injection Hst as _ Hal' Hdl' _ _.
    rewrite <-Hdl'. apply step_lookup; [by rewrite Hal'|done]. }
  split.
  - intros Hs. destruct (Htot s a Hs Ha) as [t Ht].
    exists t. split_and!; [done|by eapply Hknown|].
    intros d' Hst Hc. by apply Hstep.
  - intros Hs.
    assert (delta d !! s = None) as Hrow.
    { apply not_elem_of_dom. intros Hdom. by apply Hs, Hsrc. }
    split; [done|]. intros d' Hst Hc. apply Hstep; [done..|].
    unfold target, row. rewrite Hrow. apply lookup_empty.
Qed.

Lemma make_total_step_defined_witness :
  (let d := DFA_init (Some ["q0"; "q1"]) (Some ["a"; "b"])
              (Some (<["q0" := <["a" := "q1"]> ∅]> ∅))
              (Some "q0") (Some ["q1"]) true in
   (step "b" (run ["a"] d).1).2 = Some DEAD) ∧
  (step "a" example_stray_start).2 = None.
Proof.
  split.
  - cbv zeta.
    destruct (make_total_step_defined
                (Some ["q0"; "q1"]) (Some ["a"; "b"])
                (Some (<["q0" := <["a" := "q1"]> ∅]> ∅))
                (Some "q0") (Some ["q1"]) "q1" "b") as [Hin _].
    + compute_done.
    + destruct Hin as (t & Ht & _ & Hstep); [compute_done|].
      assert (t = DEAD) as ->
        by (vm_compute in Ht; injection Ht as <-; reflexivity).
      apply Hstep; [apply structure_run|reflexivity].
  - destruct (make_total_step_defined
                (Some ["q0"]) (Some ["a"]) None (Some "s") None "s" "a")
      as [_ Hout].
    + compute_done.
    + destruct Hout as [_ Hstep]; [compute_done|].
      apply (Hstep example_stray_start); reflexivity.
Defined.

(** C1 as stated fails when [start] is not a member of [states]: the
    cursor is set, the symbol is in the alphabet, and [step] still finds no
    entry and returns [None]. *)
Lemma step_missing_entry_counterexample :
  current example_stray_start = Some "s" ∧
  "a" ∈ alphabet example_stray_start ∧
  (step "a" example_stray_start).2 = None.
Proof. split_and!; [reflexivity|compute_done|reflexivity]. Qed.

(** X1.  Every source and every target of the transition table is a member
    of [states]: the constructor establishes it for any arguments, and
    every later call of [add_state], [add_transition], [_make_total],
    [reset], [step], [run] and [accepts] keeps it. *)
Theorem sources_and_targets_are_states
    (states0 alphabet0 : option (list string))
    (delta0 : option (gmap string (gmap string string)))
    (start0 : option string) (accept0 : option (list string))
    (make_total : bool) (cs : list call) :
  let d := perform_all cs
             (DFA_init states0 alphabet0 delta0 start0 accept0 make_total) in
  dom (delta d) ⊆ states d ∧
  ∀ s a t, target (delta d) s a = Some t → s ∈ states d ∧ t ∈ states d.
Proof.
  intros d.
  assert (sources_known d ∧ targets_known d) as [Hsrc Htgt].
  { subst d. unfold perform_all.
    generalize (constructed_closed states0 alphabet0 delta0 start0 accept0
                  make_total).
    cbv zeta.
    generalize (DFA_init states0 alphabet0 delta0 start0 accept0 make_total).
    induction cs as [|c cs IH]; intros d0 Hd0; [done|].
    change (foldl ?f d0 (c :: cs)) with (foldl f (f d0 c) cs).
    by apply IH, perform_closed. }
  split; [done|]. intros s a t Ht. split; [|by eapply Htgt].
  apply Hsrc, elem_of_dom. unfold target, row in Ht.
  destruct (delta d !! s); [done|]. cbn [default] in Ht.
  by rewrite lookup_empty in Ht.
Qed.

Lemma sources_and_targets_are_states_witness :
  let d := perform_all [AddTransition "q9" "c" "q8"; MakeTotal]
                       example_stray_accept in
  "q9" ∈ states d ∧ "q8" ∈ states d.
Proof.
  cbv zeta.
  destruct (sources_and_targets_are_states
              (Some ["q0"]) (Some ["a"]) None (Some "q0") (Some ["q1"]) true
              [AddTransition "q9" "c" "q8"; MakeTotal]) as [_ Hknown].
  apply (Hknown "q9" "c" "q8"). reflexivity.
Defined.

(** X2.  [add_transition src symbol tgt] makes [src] and [tgt] states and
    [symbol] a symbol, sets the entry of [(src, symbol)] to [tgt], and
    leaves every other entry alone; so [step symbol] from [src] then moves
    to [tgt].  Called again on the same pair it overwrites the target, and
    the table is as if only the last call had been made, while the first
    target stays in [states]. *)
Theorem add_transition_sets_entry (src symbol tgt : string) (d : DFA) :
  let d' := add_transition src symbol tgt d in
  src ∈ states d' ∧ tgt ∈ states d' ∧ symbol ∈ alphabet d' ∧
  target (delta d') src symbol = Some tgt ∧
  (∀ s a, (s, a) ≠ (src, symbol) →
          target (delta d') s a = target (delta d) s a) ∧
  (current d = Some src →
   (step symbol d').2 = Some tgt ∧ current (step symbol d').1 = Some tgt) ∧
  (∀ tgt0,
     let d0 := add_transition src symbol tgt0 d in
     delta (add_transition src symbol tgt d0) = delta d' ∧
     tgt0 ∈ states (add_transition src symbol tgt d0)).
Proof.
  intros d'.
  assert (target (delta d') src symbol = Some tgt) as Hset.
  { subst d'. rewrite add_transition_target. by rewrite decide_True. }
  split_and!.
  - subst d'. unfold add_transition. cbn. set_solver.
  - subst d'. unfold add_transition. cbn. set_solver.
  - subst d'. unfold add_transition. cbn. set_solver.
  - done.
  - intros s a Hne. subst d'. rewrite add_transition_target.
    rewrite decide_False; [done|]. intros [-> ->]. done.
  - intros Hc. rewrite <-Hset. apply step_lookup; [|done].
    subst d'. unfold add_transition. cbn. set_solver.
  - intros tgt0 d0. split.
    + subst d0 d'. unfold add_transition, row. cbn [delta].
      rewrite lookup_insert_eq. cbn [default id].
      by rewrite insert_insert_eq, insert_insert_eq.
    + subst d0. unfold add_transition. cbn. set_solver.
Qed.

Lemma add_transition_sets_entry_witness :
  let d := add_transition "q0" "c" "q9" example_ends_with_ab in
  (step "c" d).2 = Some "q9" ∧
  target (delta d) "q0" "a" = target (delta example_ends_with_ab) "q0" "a".
Proof.
  cbv zeta.
  destruct (add_transition_sets_entry "q0" "c" "q9" example_ends_with_ab)
    as (_ & _ & _ & _ & Hother & Hstep & _).
  split.
  - apply Hstep. reflexivity.
  - apply Hother. discriminate.
Defined.

Lemma make_total_twice (d : DFA) :
  _make_total (_make_total d) = _make_total d.
Proof.
  set (d' := _make_total d).
  assert (∀ s, s ∈ elements (states d') → is_Some (delta d' !! s)) as Hrows.
  { intros s Hs. apply make_total_lookup. left. by apply elem_of_elements. }
  assert (adds_dead d' = false) as Hno.
  { apply adds_dead_false. intros s a Hs Ha. apply make_total_total; [done|].
    destruct (make_total_frame d) as (<- & _). done. }
  unfold _make_total at 1. unfold adds_dead in Hno.
  rewrite ensure_rows_id in * by done.
  case_decide; [by destruct d'|]. rewrite Hno. by destruct d'.
Qed.

(** X3.  [_make_total] is idempotent: a second call changes nothing. *)
Theorem make_total_idempotent (d : DFA) :
  _make_total (_make_total d) = _make_total d.
Proof. apply make_total_twice. Qed.

(** X4.  Whatever object it is called on, also one that [add_transition]
    has left partial, [_make_total] returns with a row in [delta] for every
    state and an entry for every state and every symbol of the alphabet. *)
Theorem make_total_restores_totality (d : DFA) :
  let d' := _make_total d in
  (∀ s, s ∈ states d' → is_Some (delta d' !! s)) ∧
  (∀ s a, s ∈ states d' → a ∈ alphabet d' →
          is_Some (target (delta d') s a)).
Proof.
  intros d'. split.
  - intros s Hs. apply make_total_lookup. by left.
  - intros s a Hs Ha. apply make_total_total; [done|].
    destruct (make_total_frame d) as (<- & _). done.
Qed.

Lemma make_total_restores_totality_witness :
  let d := _make_total (add_transition "q0" "c" "q9" example_ends_with_ab) in
  is_Some (target (delta d) "q9" "a") ∧ is_Some (delta d !! "q9").
Proof.
  cbv zeta.
  destruct (make_total_restores_totality
              (add_transition "q0" "c" "q9" example_ends_with_ab))
    as [Hrow Htot].
  split.
  - apply Htot; compute_done.
  - apply Hrow. compute_done.
Defined.

(** ** Runs, symbol by symbol *)

Section runs.
Implicit Types (d : DFA) (w pre : list string) (a x q : string).

Lemma alphabet_run_loop w d : alphabet (run_loop w d).1 = alphabet d.
Proof.
  pose proof (structure_run_loop w d) as Hst.
  unfold structure in Hst. by injection Hst as _ -> _ _ _.
Qed.

Lemma run_loop_app pre w d :
  Forall (fun a => a ∈ alphabet d) pre →
  run_loop (pre ++ w) d = run_loop w (run_loop pre d).1.
Proof.
  revert d. induction pre as [|ch pre IH]; intros d Hpre; [done|].
  apply Forall_cons in Hpre as [Hch Hpre].
  cbn [app run_loop]. rewrite !decide_True by done.
  apply IH. by rewrite alphabet_step.
Qed.

Lemma run_loop_cursor w d :
  Forall (fun a => a ∈ alphabet d) w →
  (run_loop w d).2 = current (run_loop w d).1.
Proof.
  revert d. induction w as [|ch w IH]; intros d Hw; [done|].
  apply Forall_cons in Hw as [Hch Hw].
  cbn [run_loop]. rewrite decide_True by done.
  apply IH. by rewrite alphabet_step.
Qed.

(** [step] on a symbol outside the alphabet is a no-op. *)
Lemma step_invalid a d : a ∉ alphabet d → step a d = (d, None).
Proof. intros Ha. unfold step. by rewrite decide_False. Qed.

Lemma run_loop_steps w d :
  foldl (fun acc c => simulate c acc) d (Step <$> w) =
  (run_loop (filter (fun a => a ∈ alphabet d) w) d).1.
Proof.
  revert d. induction w as [|ch w IH]; intros d; [done|].
  cbn [fmap list_fmap].
  change (foldl ?f d (?c :: ?cs)) with (foldl f (f d c) cs).
  cbn [simulate]. rewrite IH, alphabet_step.
  destruct (decide (ch ∈ alphabet d)) as [Hch|Hch].
  - rewrite filter_cons_True by done. cbn [run_loop].
    by rewrite decide_True.
  - rewrite filter_cons_False by done. by rewrite step_invalid.
Qed.

(** Along a table that is total and closed under targets, the loop of
    [run] keeps the cursor on a state. *)
Lemma run_loop_total w d q :
  total d → targets_known d →
  current d = Some q → q ∈ states d →
  Forall (fun a => a ∈ alphabet d) w →
  ∃ q', (run_loop w d).2 = Some q' ∧ q' ∈ states d.
Proof.
  intros Htot Hknown. revert d q Htot Hknown.
  induction w as [|ch w IH]; intros d q Htot Hknown Hc Hq Hw.
  - exists q. by cbn.
  - apply Forall_cons in Hw as [Hch Hw].
    cbn [run_loop]. rewrite decide_True by done.
    destruct (Htot q ch Hq Hch) as [t Ht].
    destruct (step_lookup ch q d Hch Hc) as [_ Hcur].
    pose proof (structure_step ch d) as Hst. unfold structure in Hst.
    injection Hst as Hs Ha Hd _ _.
    destruct (IH (step ch d).1 t) as (q' & Hrun & Hq').
    + unfold total. by rewrite Hs, Ha, Hd.
    + unfold targets_known. by rewrite Hs, Hd.
    + by rewrite Hcur.
    + rewrite Hs. by eapply Hknown.
    + by rewrite Ha.
    + exists q'. by rewrite <-Hs.
Qed.

(** From a cursor that loops to itself on every symbol, the loop of [run]
    does not move. *)
Lemma run_loop_trap w d q :
  (∀ a, a ∈ alphabet d → target (delta d) q a = Some q) →
  current d = Some q →
  Forall (fun a => a ∈ alphabet d) w →
  (run_loop w d).2 = Some q.
Proof.
  revert d. induction w as [|ch w IH]; intros d Hloop Hc Hw; [done|].
  apply Forall_cons in Hw as [Hch Hw].
  cbn [run_loop]. rewrite decide_True by done.
  destruct (step_lookup ch q d Hch Hc) as [_ Hcur].
  pose proof (structure_step ch d) as Hst. unfold structure in Hst.
  injection Hst as _ Ha Hd _ _.
  apply IH.
  - by rewrite Ha, Hd.
  - by rewrite Hcur, Hloop.
  - by rewrite Ha.
Qed.

(** Two objects with the same alphabet and cursor, the table of the second
    extending that of the first: where the first run ends on a state, so
    does the second, on the same one. *)
Lemma run_loop_extend w d d' q :
  alphabet d' = alphabet d → current d' = current d →
  (∀ s a t, target (delta d) s a = Some t → target (delta d') s a = Some t) →
  (run_loop w d).2 = Some q → (run_loop w d').2 = Some q.
Proof.
  revert d d'. induction w as [|ch w IH]; intros d d' Hal Hc Hext Hrun.
  - cbn in *. by rewrite Hc.
  - cbn [run_loop] in *. rewrite Hal.
    destruct (decide (ch ∈ alphabet d)) as [Hch|Hch]; [|done].
    destruct (current d) as [c|] eqn:Hcur.
    + destruct (target (delta d) c ch) as [t|] eqn:Ht.
      * apply (IH (step ch d).1); [by rewrite !alphabet_step| | |done].
        -- destruct (step_lookup ch c d Hch Hcur) as [_ ->].
           destruct (step_lookup ch c d') as [_ ->]; [by rewrite Hal|done|].
           rewrite Ht. by apply Hext.
        -- pose proof (structure_step ch d) as Hst.
           pose proof (structure_step ch d') as Hst'.
           unfold structure in Hst, Hst'.
           injection Hst as _ _ -> _ _. injection Hst' as _ _ -> _ _. done.
      * assert ((run_loop w (step ch d).1).2 = None) as Hnone.
        { apply run_loop_unset.
          destruct (step_lookup ch c d Hch Hcur) as [_ ->]. done. }
        congruence.
    + assert ((run_loop w (step ch d).1).2 = None) as Hnone.
      { apply run_loop_unset. unfold step.
        rewrite decide_True by done. by rewrite Hcur. }
      congruence.
Qed.
End runs.

(** X5.  Completion is conservative: a sequence whose run ended on a state
    before [_make_total] ends on the same state after it, with the same
    verdict from [accepts]. *)
Theorem completion_is_conservative (d : DFA) (w : list string) (q : string) :
  (run w d).2 = Some q →
  (run w (_make_total d)).2 = Some q ∧
  (accepts w (_make_total d)).2 = (accepts w d).2.
Proof.
  intros Hrun.
  destruct (make_total_frame d) as (Hal & Hst & Hac & _).
  assert ((run w (_make_total d)).2 = Some q) as Hrun'.
  { unfold run in *. apply (run_loop_extend w (reset d)); [done| |  |done].
    - cbn [reset current]. by rewrite Hst.
    - intros s a t. cbn [reset delta]. apply make_total_keeps. }
  split; [done|]. by rewrite !accepts_snd, Hrun, Hrun', Hac.
Qed.

Lemma completion_is_conservative_witness :
  (run ["a"] (_make_total example_partial)).2 = Some "q1" ∧
  (accepts ["a"] (_make_total example_partial)).2 = Some true.
Proof.
  destruct (completion_is_conservative example_partial ["a"] "q1")
    as [Hr Ha]; [reflexivity|].
  split; [exact Hr|]. rewrite Ha. reflexivity.
Defined.

(** X6.  On an automaton built with [make_total=True] whose start state is
    one of its states, [accepts w] is [None] exactly when [w] holds a symbol
    outside the alphabet.  On every other [w] the run ends on a state of
    the automaton and [accepts] tells whether that state is accepting. *)
Theorem valid_input_gets_verdict
    (states0 alphabet0 : option (list string))
    (delta0 : option (gmap string (gmap string string)))
    (q0 : string) (accept0 : option (list string)) (w : list string) :
  let d := DFA_init states0 alphabet0 delta0 (Some q0) accept0 true in
  q0 ∈ states d →
  ((accepts w d).2 = None ↔ ∃ x, x ∈ w ∧ x ∉ alphabet d) ∧
  (Forall (fun a => a ∈ alphabet d) w →
   ∃ q, (run w d).2 = Some q ∧ q ∈ states d ∧
        (accepts w d).2 = Some (bool_decide (q ∈ accept d))).
Proof.
  intros d Hq0.
  assert (Forall (fun a => a ∈ alphabet d) w →
          ∃ q, (run w d).2 = Some q ∧ q ∈ states d ∧
               (accepts w d).2 = Some (bool_decide (q ∈ accept d))) as Hok.
  { intros Hw.
    assert (total (reset d)) as Htot.
    { intros s a Hs Ha. subst d. rewrite DFA_init_unfold in *.
      cbn [reset states alphabet delta] in *.
      apply make_total_total; [done|].
      by destruct (make_total_frame
                     (assemble states0 alphabet0 delta0 (Some q0) accept0))
        as (<- & _). }
    assert (targets_known (reset d)) as Hknown.
    { apply (perform_closed (Sim Reset)).
      apply (constructed_closed states0 alphabet0 delta0 (Some q0) accept0
               true). }
    assert (start d = Some q0) as Hstart.
    { subst d. rewrite DFA_init_unfold. cbn [reset start].
      destruct (make_total_frame
                  (assemble states0 alphabet0 delta0 (Some q0) accept0))
        as (_ & -> & _).
      by destruct (assemble_fields states0 alphabet0 delta0 (Some q0) accept0)
        as (_ & _ & -> & _). }
    destruct (run_loop_total w (reset d) q0 Htot Hknown)
      as (q & Hrun & Hq); [done..|].
    exists q. fold (run w d) in Hrun. split_and!; [done..|].
    by rewrite accepts_snd, Hrun. }
  split; [|done]. split.
  - intros Hnone.
    destruct (decide (Forall (fun a => a ∈ alphabet d) w)) as [Hw|Hw].
    + destruct (Hok Hw) as (q & _ & _ & Hacc). congruence.
    + apply not_Forall_Exists in Hw; [|apply _].
      by apply Exists_exists in Hw.
  - intros (x & Hin & Hx).
    destruct (first_invalid_symbol (alphabet d) w x Hin Hx)
      as (pre & y & post & -> & Hpre & Hy).
    rewrite accepts_snd. unfold run.
    by rewrite run_loop_abort.
Qed.

Lemma valid_input_gets_verdict_witness :
  ∃ q, (run ["a"; "b"; "b"] example_ends_with_ab).2 = Some q ∧
       q ∈ states example_ends_with_ab.
Proof.
  destruct (valid_input_gets_verdict
              (Some ["q0"; "q1"; "q2"]) (Some ["a"; "b"])
              (Some (<["q0" := <["a" := "q1"]> (<["b" := "q0"]> ∅)]>
                    (<["q1" := <["a" := "q1"]> (<["b" := "q2"]> ∅)]>
                    (<["q2" := <["a" := "q1"]> (<["b" := "q0"]> ∅)]> ∅))))
              "q0" (Some ["q2"]) ["a"; "b"; "b"]) as [_ Hok].
  - compute_done.
  - destruct Hok as (q & Hr & Hq & _); [compute_done|].
    exists q. exact (conj Hr Hq).
Defined.

(** X7.  The dead state is a trap for whole runs.  When [_make_total] adds
    the dead state, and the name [DEAD] was not in use before (not in
    [accept], no transition of its own to another state), a sequence over
    the alphabet whose prefix leads to the dead state ends in the dead
    state and is rejected, whatever follows the prefix. *)
Theorem dead_state_is_a_trap (d : DFA) (pre w : list string) :
  adds_dead d = true →
  DEAD ∉ accept d →
  (∀ x t, x ∈ alphabet d → target (delta d) DEAD x = Some t → t = DEAD) →
  Forall (fun a => a ∈ alphabet d) pre →
  Forall (fun a => a ∈ alphabet d) w →
  let d' := _make_total d in
  (run pre d').2 = Some DEAD →
  (run (pre ++ w) d').2 = Some DEAD ∧
  (accepts (pre ++ w) d').2 = Some false.
Proof.
  intros Hdead Hacc Hrow Hpre Hw d' Hrun.
  destruct (make_total_frame d) as (Hal & _ & Hac & _). fold d' in Hal, Hac.
  assert ((run (pre ++ w) d').2 = Some DEAD) as Hrun'.
  { unfold run in *. rewrite run_loop_app by (cbn; by rewrite Hal).
    pose proof (structure_run_loop pre (reset d')) as Hst.
    unfold structure in Hst. injection Hst as _ Ha Hd _ _.
    apply run_loop_trap.
    - intros a Ha'. rewrite Hd. cbn [reset delta]. subst d'.
      rewrite make_total_target, Hdead.
      rewrite Ha in Ha'. cbn [reset alphabet] in Ha'. rewrite Hal in Ha'.
      rewrite decide_True by (split; [set_solver|done]).
      destruct (target (delta d) DEAD a) as [t|] eqn:Ht; [|done].
      by rewrite (Hrow a t Ha' Ht).
    - rewrite <-run_loop_cursor; [done|]. cbn. by rewrite Hal.
    - rewrite Ha. cbn. by rewrite Hal. }
  split; [done|]. rewrite accepts_snd, Hrun', Hac. cbn.
  by rewrite bool_decide_eq_false_2.
Qed.

Lemma dead_state_is_a_trap_witness :
  (accepts (["b"] ++ ["a"; "a"]) (_make_total example_partial)).2 =
  Some false.
Proof.
  apply (dead_state_is_a_trap example_partial ["b"] ["a"; "a"]).
  - reflexivity.
  - compute_done.
  - intros x t _ Ht. vm_compute in Ht. discriminate.
  - compute_done.
  - compute_done.
  - reflexivity.
Defined.

(** X8.  Calling [reset] and then [step] on each symbol of [w] in turn
    leaves the object where [run] leaves it on [w] with the symbols outside
    the alphabet dropped: [step] skips such a symbol, [run] aborts on it.
    So on a sequence over the alphabet, stepping and [run] agree, and the
    cursor after stepping is what [run] returns. *)
Theorem stepping_skips_where_run_aborts (d : DFA) (w : list string) :
  simulate_all (Reset :: (Step <$> w)) d =
    (run (filter (fun a => a ∈ alphabet d) w) d).1 ∧
  (Forall (fun a => a ∈ alphabet d) w →
   simulate_all (Reset :: (Step <$> w)) d = (run w d).1 ∧
   current (simulate_all (Reset :: (Step <$> w)) d) = (run w d).2).
Proof.
  assert (simulate_all (Reset :: (Step <$> w)) d =
          (run (filter (fun a => a ∈ alphabet d) w) d).1) as Hsteps.
  { unfold simulate_all, run.
    change (foldl ?f d (?c :: ?cs)) with (foldl f (f d c) cs).
    cbn [simulate]. by rewrite run_loop_steps. }
  split; [done|]. intros Hw.
  assert (filter (fun a => a ∈ alphabet d) w = w) as Hid.
  { clear Hsteps. induction Hw as [|a w Ha Hw IH]; [done|].
    by rewrite filter_cons_True, IH. }
  rewrite Hsteps, Hid. split; [done|].
  unfold run. by rewrite run_loop_cursor.
Qed.

Lemma stepping_skips_where_run_aborts_witness :
  simulate_all (Reset :: (Step <$> ["a"; "b"])) example_ends_with_ab =
  (run ["a"; "b"] example_ends_with_ab).1.
Proof.
  destruct (stepping_skips_where_run_aborts example_ends_with_ab ["a"; "b"])
    as [_ Hw].
  apply Hw. compute_done.
Defined.

(** X9.  A missing table entry invalidates the run.  If the run of [pre]
    ends on [q], the symbol [a] is in the alphabet and the table has no
    entry for [(q, a)], then [run] and [accepts] return [None] on
    [pre ++ a :: w] for every [w], although no symbol need be outside the
    alphabet. *)
Theorem missing_entry_invalidates_run
    (d : DFA) (pre w : list string) (q a : string) :
  Forall (fun x => x ∈ alphabet d) pre →
  (run pre d).2 = Some q →
  a ∈ alphabet d →
  target (delta d) q a = None →
  (run (pre ++ a :: w) d).2 = None ∧ (accepts (pre ++ a :: w) d).2 = None.
Proof.
  intros Hpre Hrun Ha Hmiss.
  assert ((run (pre ++ a :: w) d).2 = None) as Hnone.
  { unfold run in *. rewrite run_loop_app by done.
    set (d1 := (run_loop pre (reset d)).1) in *.
    assert (current d1 = Some q) as Hc
      by (subst d1; by rewrite <-run_loop_cursor).
    pose proof (structure_run_loop pre (reset d)) as Hst.
    unfold structure in Hst. injection Hst as _ Hal Hd _ _.
    fold d1 in Hal, Hd. cbn [reset alphabet delta] in Hal, Hd.
    cbn [run_loop]. rewrite decide_True by (by rewrite Hal).
    apply run_loop_unset.
    destruct (step_lookup a q d1) as [_ ->]; [by rewrite Hal|done|].
    by rewrite Hd. }
  split; [done|]. by rewrite accepts_snd, Hnone.
Qed.

Lemma missing_entry_invalidates_run_witness :
  (accepts ([] ++ "b" :: ["a"]) example_partial).2 = None.
Proof.
  apply (missing_entry_invalidates_run example_partial [] ["a"] "q0" "b").
  - constructor.
  - reflexivity.
  - compute_done.
  - reflexivity.
Defined.

(** ** The snapshot of [to_dict] *)

Section snapshots.
Implicit Types (d : DFA) (s a t q : string) (X : gset string).

Lemma elem_of_sorted X q : q ∈ sorted X ↔ q ∈ X.
Proof.
  unfold sorted. by rewrite merge_sort_Permutation, elem_of_elements.
Qed.

Lemma NoDup_sorted X : NoDup (sorted X).
Proof.
  unfold sorted. rewrite merge_sort_Permutation. apply NoDup_elements.
Qed.

Lemma Sorted_sorted X : Sorted string_le (sorted X).
Proof. unfold sorted. apply (Sorted_merge_sort string_le). Qed.

Lemma list_to_set_sorted X : list_to_set (sorted X) = X.
Proof.
  apply set_eq. intros q. by rewrite elem_of_list_to_set, elem_of_sorted.
Qed.

(** The dictionary under ['delta']: one row for each state, no other. *)
Lemma lookup_snapshot_rows (f : string → gmap string string)
    (l : list string) s :
  (list_to_map ((fun x => (x, f x)) <$> l) : gmap string (gmap string string))
    !! s = if decide (s ∈ l) then Some (f s) else None.
Proof.
  induction l as [|x l IH]; [done|].
  cbn [fmap list_fmap list_to_map foldr]. rewrite lookup_insert.
  cbn [fst snd]. destruct (decide (x = s)) as [->|Hne].
  - by rewrite decide_True by (apply elem_of_cons; by left).
  - rewrite IH. repeat case_decide; try done;
      rewrite ?elem_of_cons in *; naive_solver.
Qed.

Lemma lookup_ensure_rows_eq (sts : list string)
    (dl : gmap string (gmap string string)) s :
  ensure_rows sts dl !! s =
  if decide (s ∈ sts) then Some (row dl s) else dl !! s.
Proof.
  pose proof (lookup_ensure_rows sts dl s) as [Hsome1 Hsome2].
  pose proof (row_ensure_rows sts dl s) as Hrow. unfold row in *.
  destruct (ensure_rows sts dl !! s) as [r|] eqn:Hr; cbn [default id] in Hrow.
  - case_decide as Hs; [by rewrite Hrow|].
    destruct Hsome1 as [?|[r' Hr']]; [done|done|].
    rewrite Hr' in *. cbn [default id] in Hrow. by rewrite Hrow.
  - case_decide as Hs.
    + destruct Hsome2 as [? ?]; [by left|done].
    + destruct (dl !! s) eqn:Hd; [|done].
      destruct Hsome2 as [? ?]; [by right|done].
Qed.

(** [_make_total] reads the table only through the rows of the states, and
    copies the cursor. *)
Lemma make_total_ensured
    (S A : gset string) (D : gmap string (gmap string string))
    (st : option string) (ac : gset string) (c c' : option string) :
  reset (_make_total (mkDFA S A (ensure_rows (elements S) D) st ac c)) =
  reset (_make_total (mkDFA S A D st ac c')).
Proof.
  unfold _make_total. cbn [states alphabet delta start accept current].
  rewrite (ensure_rows_id (elements S) (ensure_rows (elements S) D)).
  - case_decide; [done|]. by destruct (need_dead _ _ _).
  - intros s Hs. apply lookup_ensure_rows. by left.
Qed.

Lemma from_snapshot_to_dict d :
  sources_known d → targets_known d →
  from_snapshot (to_dict d) = reset (_make_total d).
Proof.
  intros Hsrc Htgt.
  unfold from_snapshot, from_components, to_dict.
  cbn [snap_states snap_alphabet snap_delta snap_start snap_accept].
  rewrite DFA_init_unfold.
  set (M := list_to_map ((fun s => (s, row (delta d) s)) <$> sorted (states d))
            : gmap string (gmap string string)).
  assert (∀ s, M !! s = if decide (s ∈ states d)
                        then Some (row (delta d) s) else None) as HM.
  { intros s. subst M. rewrite lookup_snapshot_rows.
    repeat case_decide; try done; rewrite elem_of_sorted in *; done. }
  assert (M = ensure_rows (elements (states d)) (delta d)) as HMe.
  { apply map_eq. intros s. rewrite HM, lookup_ensure_rows_eq.
    repeat case_decide; try done; rewrite ?elem_of_elements in *; try done.
    destruct (delta d !! s) eqn:Hd; [|done].
    exfalso. apply H. apply Hsrc, elem_of_dom. by rewrite Hd. }
  set (A := assemble _ _ _ _ _).
  destruct (assemble_fields (Some (sorted (states d)))
              (Some (sorted (alphabet d))) (Some M) (start d)
              (Some (sorted (accept d)))) as (Hal & Hdl & Hst & Hac & Hcu).
  fold A in Hal, Hdl, Hst, Hac, Hcu. cbn [default id] in *.
  rewrite list_to_set_sorted in Hal, Hac.
  assert (states A = states d) as Hsts.
  { apply set_eq. intros q. subst A.
    rewrite elem_of_assemble_states. cbn [default id].
    rewrite elem_of_sorted, elem_of_dom. split.
    - intros [?|[[r Hr]|(s & a & Hsa)]]; [done| |].
      + rewrite HM in Hr. by case_decide.
      + unfold target, row in Hsa. rewrite HM in Hsa.
        case_decide; cbn [default] in Hsa; [|by rewrite lookup_empty in Hsa].
        by eapply Htgt.
    - by left. }
  assert (A = mkDFA (states d) (alphabet d)
                (ensure_rows (elements (states d)) (delta d))
                (start d) (accept d) None) as ->.
  { apply structure_eq; [|done]. unfold structure. cbn.
    by rewrite Hsts, Hal, Hdl, Hst, Hac, HMe. }
  rewrite (make_total_ensured _ _ _ _ _ None (current d)). by destruct d.
Qed.

Lemma make_total_reset d :
  reset (_make_total (reset d)) = reset (_make_total d).
Proof.
  unfold _make_total, reset. cbn [states alphabet delta start accept current].
  case_decide; [done|]. by destruct (need_dead _ _ _).
Qed.
End snapshots.

(** X10.  [to_dict] does not record the cursor: simulation calls do not
    change it.  Its lists of states, symbols and accept states are sorted,
    free of duplicates and hold exactly the members of the three sets.  Its
    ['delta'] has one item per state, in the order of the sorted states,
    holding that state's row, empty if the state has none; rows of sources
    that are not states are left out. *)
Theorem to_dict_contents (d : DFA) :
  let sn := to_dict d in
  (∀ c, to_dict (simulate c d) = sn) ∧
  (Sorted string_le (snap_states sn) ∧ NoDup (snap_states sn) ∧
   ∀ q, q ∈ snap_states sn ↔ q ∈ states d) ∧
  (Sorted string_le (snap_alphabet sn) ∧ NoDup (snap_alphabet sn) ∧
   ∀ a, a ∈ snap_alphabet sn ↔ a ∈ alphabet d) ∧
  (Sorted string_le (snap_accept sn) ∧ NoDup (snap_accept sn) ∧
   ∀ q, q ∈ snap_accept sn ↔ q ∈ accept d) ∧
  (snap_delta sn).*1 = snap_states sn ∧
  (∀ s r, (s, r) ∈ snap_delta sn ↔ s ∈ states d ∧ r = row (delta d) s) ∧
  snap_start sn = start d.
Proof.
  intros sn. subst sn. unfold to_dict.
  cbn [snap_states snap_alphabet snap_delta snap_start snap_accept].
  split_and!;
    auto using Sorted_sorted, NoDup_sorted, elem_of_sorted.
  - intros c. pose proof (structure_simulate c d) as Hst.
    unfold structure in Hst. by injection Hst as -> -> -> -> ->.
  - rewrite <-list_fmap_compose. apply list_fmap_id.
  - intros s r. rewrite list_elem_of_fmap. split.
    + intros (x & [= -> ->] & Hx). by rewrite elem_of_sorted in Hx.
    + intros [Hs ->]. exists s. by rewrite elem_of_sorted.
Qed.

(** X11.  Round trip.  For an object whose table has only states as sources
    and targets, feeding the entries of [to_dict] to [from_components] gives
    the object that [_make_total] followed by [reset] gives. *)
Theorem to_dict_from_components (d : DFA) :
  dom (delta d) ⊆ states d →
  (∀ s a t, target (delta d) s a = Some t → t ∈ states d) →
  from_snapshot (to_dict d) = reset (_make_total d).
Proof. apply from_snapshot_to_dict. Qed.

Lemma to_dict_from_components_witness :
  from_snapshot (to_dict example_partial) =
  reset (_make_total example_partial).
Proof.
  apply to_dict_from_components.
  - apply assemble_sources_known.
  - intros s a t. apply assemble_targets_known.
Defined.

(** X12.  Round trip on a fresh automaton.  An automaton built by the
    constructor with [make_total=True] is given back unchanged, cursor on
    the start state included, by [from_components] on the entries of its
    [to_dict]. *)
Theorem to_dict_from_components_fresh
    (states0 alphabet0 : option (list string))
    (delta0 : option (gmap string (gmap string string)))
    (start0 : option string) (accept0 : option (list string)) :
  let d := DFA_init states0 alphabet0 delta0 start0 accept0 true in
  from_snapshot (to_dict d) = d.
Proof.
  intros d.
  destruct (constructed_closed states0 alphabet0 delta0 start0 accept0 true)
    as [Hsrc Htgt].
  rewrite from_snapshot_to_dict by done.
  subst d. rewrite DFA_init_unfold.
  by rewrite make_total_reset, make_total_twice.
Qed.

(** ** The language of [example_ends_with_ab] *)

Section ends_with_ab.
Implicit Types (w u : list string) (x q : string).

Lemma suffix_a_snoc u x : ["a"] `suffix_of` (u ++ [x]) ↔ x = "a".
Proof.
  split.
  - intros [k Hk]. by apply app_inj_tail in Hk as [_ ->].
  - intros ->. by exists u.
Qed.

Lemma suffix_ab_snoc u x :
  ["a"; "b"] `suffix_of` (u ++ [x]) ↔ x = "b" ∧ ["a"] `suffix_of` u.
Proof.
  split.
  - intros [k Hk]. change (k ++ ["a"; "b"]) with (k ++ ["a"] ++ ["b"]) in Hk.
    rewrite (assoc_L (++)) in Hk. apply app_inj_tail in Hk as [-> ->].
    split; [done|]. by exists k.
  - intros [-> [k ->]]. exists k. by rewrite <-(assoc_L (++)).
Qed.

(** One more symbol after a run that ended on a state. *)
Lemma run_snoc (d : DFA) u x q :
  Forall (fun a => a ∈ alphabet d) u → x ∈ alphabet d →
  (run u d).2 = Some q →
  (run (u ++ [x]) d).2 = target (delta d) q x.
Proof.
  intros Hu Hx Hrun. unfold run in *.
  rewrite run_loop_app by done.
  set (d1 := (run_loop u (reset d)).1) in *.
  assert (current d1 = Some q) as Hc
    by (subst d1; by rewrite <-run_loop_cursor).
  pose proof (structure_run_loop u (reset d)) as Hst.
  unfold structure in Hst. injection Hst as _ Hal Hd _ _.
  fold d1 in Hal, Hd. cbn [reset alphabet delta] in Hal, Hd.
  cbn [run_loop]. rewrite decide_True by (by rewrite Hal).
  destruct (step_lookup x q d1) as [_ Hcur]; [by rewrite Hal|done|].
  cbn [run_loop]. by rewrite Hcur, Hd.
Qed.

Lemma ends_with_ab_alphabet x :
  x = "a" ∨ x = "b" → x ∈ alphabet example_ends_with_ab.
Proof. intros [->| ->]; compute_done. Qed.

(** The state reached after [w], read off the last two symbols. *)
Lemma ends_with_ab_state w :
  Forall (fun x => x = "a" ∨ x = "b") w →
  (run w example_ends_with_ab).2 =
  Some (if decide (["a"] `suffix_of` w) then "q1"
        else if decide (["a"; "b"] `suffix_of` w) then "q2" else "q0").
Proof.
  induction w as [|x u IH] using rev_ind; intros Hw.
  - rewrite decide_False by (by intros [[|??] ?]).
    rewrite decide_False by (by intros [[|??] ?]). reflexivity.
  - apply Forall_app in Hw as [Hu Hx]. rewrite Forall_singleton in Hx.
    specialize (IH Hu).
    rewrite (run_snoc _ u x _ (Forall_impl _ _ _ Hu ends_with_ab_alphabet)
               (ends_with_ab_alphabet x Hx) IH).
    rewrite (decide_ext _ _ _ _ (suffix_a_snoc u x)).
    rewrite (decide_ext _ _ _ _ (suffix_ab_snoc u x)).
    destruct Hx as [->| ->].
    + rewrite (decide_True (P := "a" = "a")) by done.
      destruct (decide (["a"] `suffix_of` u));
        [|destruct (decide (["a"; "b"] `suffix_of` u))];
        reflexivity.
    + rewrite (decide_False (P := "b" = "a")) by done.
      destruct (decide (["a"] `suffix_of` u)).
      * rewrite decide_True by done. reflexivity.
      * destruct (decide ("b" = "b" ∧ ["a"] `suffix_of` u)) as [[_ ?]|_];
          [done|].
        destruct (decide (["a"; "b"] `suffix_of` u)); reflexivity.
Qed.
End ends_with_ab.

(** X13.  [example_ends_with_ab] does what its docstring says.  On a
    sequence over [a], [b] the verdict of [accepts] is whether the sequence
    ends with [a] followed by [b]; on any other sequence it is [None]. *)
Theorem ends_with_ab_language (w : list string) :
  (accepts w example_ends_with_ab).2 =
  if decide (Forall (fun x => x = "a" ∨ x = "b") w)
  then Some (bool_decide (["a"; "b"] `suffix_of` w))
  else None.
Proof.
  case_decide as Hw.
  - rewrite accepts_snd, ends_with_ab_state by done.
    cbn [fmap option_fmap option_map]. f_equal.
    destruct (decide (["a"] `suffix_of` w)) as [Ha|Ha].
    + transitivity false; [reflexivity|].
      symmetry. apply bool_decide_eq_false_2.
      intros [k ->]. destruct Ha as [k' Hk'].
      change (k ++ ["a"; "b"]) with (k ++ ["a"] ++ ["b"]) in Hk'.
      rewrite (assoc_L (++)) in Hk'. by apply app_inj_tail in Hk' as [_ ?].
    + destruct (decide (["a"; "b"] `suffix_of` w)) as [Hab|Hab].
      * transitivity true; [reflexivity|].
        symmetry. by apply bool_decide_eq_true_2.
      * transitivity false; [reflexivity|].
        symmetry. by apply bool_decide_eq_false_2.
  - apply not_Forall_Exists in Hw; [|apply _].
    apply Exists_exists in Hw as (x & Hin & Hx).
    assert (x ∉ alphabet example_ends_with_ab) as Hout.
    { intros Hxa. apply Hx.
      assert (alphabet example_ends_with_ab = {["a"; "b"]}) as Hal
        by compute_done.
      rewrite Hal in Hxa.
      apply elem_of_union in Hxa as [Hxa|Hxa];
        apply elem_of_singleton in Hxa; auto. }
    destruct (first_invalid_symbol _ w x Hin Hout)
      as (pre & y & post & -> & Hpre & Hy).
    rewrite accepts_snd. unfold run. by rewrite run_loop_abort.
Qed.

(** ** The security automaton of [main.py] *)

Example split_words :
  split "  Armed_Home   door Entry_Delay " = ["Armed_Home"; "door"; "Entry_Delay"]
  ∧ split "" = [] ∧ split "   " = [].
Proof. repeat split. Qed.

Section security.
Implicit Types (d : DFA) (w pre : list string) (a q : string).

(** A run that has reached a state looping to itself on every symbol stays
    there. *)
Lemma run_trap d pre w q :
  (∀ a, a ∈ alphabet d → target (delta d) q a = Some q) →
  Forall (fun a => a ∈ alphabet d) pre →
  Forall (fun a => a ∈ alphabet d) w →
  (run pre d).2 = Some q →
  (run (pre ++ w) d).2 = Some q.
Proof.
  intros Hloop Hpre Hw Hrun. unfold run in *.
  rewrite run_loop_app by done.
  pose proof (structure_run_loop pre (reset d)) as Hst.
  unfold structure in Hst. injection Hst as _ Ha Hd _ _.
  apply run_loop_trap.
  - intros a Ha'. rewrite Hd. apply Hloop. by rewrite <-Ha.
  - by rewrite <-run_loop_cursor.
  - by rewrite Ha.
Qed.

Lemma load_security_example_value :
  load_security_example = Some security_dfa.
Proof.
  assert (is_Some (read_transitions security_transitions)) as [dl Hdl]
    by compute_done.
  unfold load_security_example, security_dfa, security_table.
  by rewrite Hdl.
Qed.

Lemma security_states_value :
  states security_dfa = {[DEAD]} ∪ list_to_set security_states.
Proof. compute_done. Qed.

Lemma security_alphabet_value :
  alphabet security_dfa = list_to_set security_alphabet.
Proof. compute_done. Qed.

Lemma security_accept_value :
  accept security_dfa = {["Armed_Home"; "Armed_Away"]}.
Proof. compute_done. Qed.

Lemma security_start_value :
  current (reset security_dfa) = Some "Disarmed" ∧
  "Disarmed" ∈ states (reset security_dfa).
Proof. split; [by vm_compute|compute_done]. Qed.

Lemma security_dead_loops :
  Forall (fun a => target (delta security_dfa) DEAD a = Some DEAD)
         security_alphabet.
Proof. compute_done. Qed.

Lemma security_second_event :
  (run ["arm_away"; "motion"; "motion"] security_dfa).2 = Some DEAD.
Proof. by vm_compute. Qed.
End security.

(** X14.  [load_security_example] in [main.py] reads its twenty transition
    lines without raising and stores an automaton that needed completion:
    its states are the six listed ones and the dead state.  Every sequence
    over the seven commands gets a verdict from [accepts], true exactly when
    the run ends in [Armed_Home] or [Armed_Away].  A sequence that reaches
    the dead state, as one reporting a second [motion] after the alarm was
    triggered does, is reported as not armed whatever commands follow, a
    [disarm] followed by [arm_home] included. *)
Theorem security_example_verdicts :
  load_security_example = Some security_dfa ∧
  states security_dfa = {[DEAD]} ∪ list_to_set security_states ∧
  alphabet security_dfa = list_to_set security_alphabet ∧
  (∀ w, Forall (fun a => a ∈ alphabet security_dfa) w →
        ∃ q, (run w security_dfa).2 = Some q ∧ q ∈ states security_dfa ∧
             (accepts w security_dfa).2 =
             Some (bool_decide (q = "Armed_Home" ∨ q = "Armed_Away"))) ∧
  (∀ pre w,
     Forall (fun a => a ∈ alphabet security_dfa) pre →
     Forall (fun a => a ∈ alphabet security_dfa) w →
     (run pre security_dfa).2 = Some DEAD →
     (accepts (pre ++ w) security_dfa).2 = Some false) ∧
  (run ["arm_away"; "motion"; "motion"] security_dfa).2 = Some DEAD.
Proof.
  pose proof load_security_example_value as Hload.
  pose proof security_states_value as Hsts.
  pose proof security_alphabet_value as Hal.
  pose proof security_accept_value as Hac.
  pose proof security_start_value as [Hcur Hstart].
  pose proof security_dead_loops as Hloop.
  pose proof security_second_event as Hex.
  assert (total (reset security_dfa)) as Htot
    by apply constructed_total.
  assert (targets_known (reset security_dfa)) as Hknown.
  { apply (perform_closed (Sim Reset)).
    apply (constructed_closed (Some security_states)
             (Some security_alphabet) (Some security_table)
             (Some "Disarmed") (Some ["Armed_Home"; "Armed_Away"]) true). }
  revert Hload Hsts Hal Hac Hcur Hstart Hloop Hex Htot Hknown.
  generalize security_dfa. intros sec Hload Hsts Hal Hac Hcur Hstart Hloop
    Hex Htot Hknown.
  assert (∀ q, q ∈ accept sec ↔ q = "Armed_Home" ∨ q = "Armed_Away") as Hacc.
  { intros q. by rewrite Hac, elem_of_union, !elem_of_singleton. }
  assert (∀ a, a ∈ alphabet sec → target (delta sec) DEAD a = Some DEAD)
    as Hloop'.
  { intros a Ha. rewrite Hal, elem_of_list_to_set in Ha.
    by apply (proj1 (Forall_forall _ _) Hloop). }
  split_and!; [exact Hload|exact Hsts|exact Hal| | |exact Hex].
  - intros w Hw.
    destruct (run_loop_total w (reset sec) "Disarmed" Htot Hknown Hcur
                Hstart Hw) as (q & Hrun & Hq).
    exists q. fold (run w sec) in Hrun. split_and!; [exact Hrun|exact Hq|].
    rewrite accepts_snd, Hrun. cbn. f_equal. apply bool_decide_ext, Hacc.
  - intros pre w Hpre Hw Hrun.
    rewrite accepts_snd, (run_trap sec pre w DEAD Hloop' Hpre Hw Hrun).
    cbn. f_equal. apply bool_decide_eq_false_2.
    rewrite Hacc. by intros [?|?].
Qed.

Lemma security_example_verdicts_witness :
  (accepts (["arm_away"; "motion"; "motion"] ++ ["disarm"; "arm_home"])
           security_dfa).2 = Some false.
Proof.
  destruct security_example_verdicts as (_ & _ & _ & _ & Htrap & Hex).
  apply Htrap; [compute_done|compute_done|exact Hex].
Defined.

(** ** Completion and the verdicts *)

Section fallback.
Implicit Types (d : DFA) (w : list string) (a c q : string).

Lemma delta_step a d : delta (step a d).1 = delta d.
Proof.
  pose proof (structure_step a d) as Hst.
  unfold structure in Hst. by injection Hst as _ _ -> _ _.
Qed.

(** Two objects on the same cursor, the second table extending the first
    and sending to [dead], which loops, every pair the first one misses on
    the states in [K]: where the first run loses its cursor, the second
    ends in [dead]. *)
Lemma run_loop_fallback (K : string → Prop) dead w d d' c :
  alphabet d' = alphabet d →
  current d = Some c → current d' = Some c → K c →
  (∀ s a t, K s → target (delta d) s a = Some t →
            K t ∧ target (delta d') s a = Some t) →
  (∀ s a, K s → a ∈ alphabet d → target (delta d) s a = None →
          target (delta d') s a = Some dead) →
  (∀ a, a ∈ alphabet d → target (delta d') dead a = Some dead) →
  Forall (fun a => a ∈ alphabet d) w →
  (run_loop w d).2 = None → (run_loop w d').2 = Some dead.
Proof.
  revert d d' c.
  induction w as [|ch w IH];
    intros d d' c Hal Hc Hc' HK Hext Hmiss Hloop Hw Hrun.
  - cbn in Hrun. congruence.
  - apply Forall_cons in Hw as [Hch Hw]. cbn [run_loop] in *.
    rewrite Hal. rewrite decide_True in * by done.
    destruct (step_lookup ch c d Hch Hc) as [_ Hcur].
    destruct (step_lookup ch c d') as [_ Hcur']; [by rewrite Hal|done|].
    destruct (target (delta d) c ch) as [t|] eqn:Ht.
    + destruct (Hext c ch t HK Ht) as [HKt Ht'].
      apply (IH (step ch d).1 (step ch d').1 t);
        rewrite ?alphabet_step, ?delta_step; try done.
      by rewrite Hcur', Ht'.
    + apply run_loop_trap.
      * intros a Ha. rewrite delta_step. apply Hloop.
        by rewrite alphabet_step, Hal in Ha.
      * rewrite Hcur'. by apply Hmiss.
      * by rewrite alphabet_step, Hal.
Qed.
End fallback.

(** X15.  Completion turns lost runs into rejections.  Take an object whose
    start state is one of its states, whose targets are states, and that
    does not use the name [DEAD] in [accept] or as the source of a
    transition to another state.  A sequence over the alphabet on which
    [run] returns [None], because the table misses an entry on the way,
    ends in the dead state after [_make_total] and [accepts] returns
    [False] on it. *)
Theorem completion_rejects_lost_runs (d : DFA) (q0 : string) (w : list string) :
  start d = Some q0 → q0 ∈ states d →
  (∀ s a t, target (delta d) s a = Some t → t ∈ states d) →
  DEAD ∉ accept d →
  (∀ x t, x ∈ alphabet d → target (delta d) DEAD x = Some t → t = DEAD) →
  Forall (fun a => a ∈ alphabet d) w →
  (run w d).2 = None →
  (run w (_make_total d)).2 = Some DEAD ∧
  (accepts w (_make_total d)).2 = Some false.
Proof.
  intros Hstart Hq0 Hknown Hacc Hrow Hw Hrun.
  destruct (make_total_frame d) as (Hal & Hst & Hac & _).
  assert (adds_dead d = true) as Hdead.
  { destruct (adds_dead d) eqn:Hno; [done|]. exfalso.
    pose proof (proj1 (adds_dead_false d) Hno) as Htot.
    destruct (run_loop_total w (reset d) q0 Htot Hknown Hstart Hq0 Hw)
      as (q & Hq & _).
    unfold run in Hrun. congruence. }
  assert ((run w (_make_total d)).2 = Some DEAD) as Hrun'.
  { unfold run in *.
    apply (run_loop_fallback (fun s => s ∈ states d) DEAD w (reset d) _ q0);
      cbn [reset alphabet current delta]; try done.
    - by rewrite Hst.
    - intros s a t Hs Ht. split; [by eapply Hknown|].
      by apply make_total_keeps.
    - intros s a Hs Ha Hnone. rewrite make_total_fills by done.
      by rewrite Hnone.
    - intros a Ha. rewrite make_total_target, Hdead.
      rewrite decide_True by (split; [set_solver|done]).
      destruct (target (delta d) DEAD a) as [t|] eqn:Ht; [|done].
      by rewrite (Hrow a t Ha Ht). }
  split; [done|]. rewrite accepts_snd, Hrun', Hac. cbn.
  by rewrite bool_decide_eq_false_2.
Qed.

Lemma completion_rejects_lost_runs_witness :
  (accepts ["b"; "a"] (_make_total example_partial)).2 = Some false.
Proof.
  apply (completion_rejects_lost_runs example_partial "q0" ["b"; "a"]).
  - reflexivity.
  - compute_done.
  - intros s a t. apply assemble_targets_known.
  - compute_done.
  - intros x t _ Ht. vm_compute in Ht. discriminate.
  - compute_done.
  - reflexivity.
Defined.
